(** * anyseq: Batch.Reduce, Batch.Expand, Reduce and Prune

    A shallow embedding of [anyseq/reduce.go] and the properties of its
    packed-batch arithmetic.

    Conventions of the embedding.
    - A Go panic is an [Err] result; the kind of panic is kept, so that the
      two explicit [panic("...")] calls are told apart from the runtime
      errors (integer division by zero, index out of range, a [Slice] that
      leaves the vector).
    - Go's [int] values here are lengths, slot indices and offsets into
      [b.Packed].  The loop lemmas [Reduce_loop_spec] and [Expand_loop_spec]
      show that the offsets never exceed [b.Packed.Len()], which is itself an
      [int]; no 64-bit wrap-around can occur and they are modelled in [nat].
      [Len() / n] is Go's integer division, which panics for [n = 0].
    - A vector is known by its contents, except where it matters which
      vector object a batch holds: there a batch holds the address of its
      vector in a store of vector objects ([BatchObj], [Prune_obj]).  The
      numeric type of the entries is the creator's; nothing in this file
      computes with entries, so the development is parametric in it. *)

From Stdlib Require Import List Arith Bool Lia Sorted.
From Stdlib Require String.
Import ListNotations.
Import String.StringSyntax.
Local Open Scope string_scope.

Set Implicit Arguments.

(** ** Panics *)

Inductive panic : Type :=
| DivideByZero                 (* runtime error: integer divide by zero *)
| IndexOutOfRange              (* runtime error: index out of range *)
| SliceOutOfRange              (* Vector.Slice with bounds outside the vector *)
| Message (msg : String.string).      (* panic(msg) *)

Inductive result (A : Type) : Type :=
| Ok (a : A)
| Err (p : panic).

Arguments Ok {A} a.
Arguments Err {A} p.

Definition bind {A B : Type} (r : result A) (k : A -> result B) : result B :=
  match r with
  | Ok a => k a
  | Err p => Err p
  end.

Notation "x <- r ;; k" := (bind r (fun x => k))
  (at level 61, r at next level, right associativity).

(** [l[i]] on a Go slice. *)
Definition index {A : Type} (l : list A) (i : nat) : result A :=
  match nth_error l i with
  | Some a => Ok a
  | None => Err IndexOutOfRange
  end.

(** Number of [true] entries of a mask. *)
Fixpoint count_true (m : list bool) : nat :=
  match m with
  | [] => 0
  | true :: m' => S (count_true m')
  | false :: m' => count_true m'
  end.

(** The accesses the batch operations make: [b.Present[i]] and
    [b.Packed.Slice(start, end)].  The loops record them in order. *)
Inductive access : Type :=
| IndexPresent (i : nat)
| SlicePacked (start stop : nat).

(** The slots of [b.Present] a trace reads, in the order of the reads. *)
Fixpoint indexed (tr : list access) : list nat :=
  match tr with
  | [] => []
  | IndexPresent i :: rest => i :: indexed rest
  | SlicePacked _ _ :: rest => indexed rest
  end.

Section Anyseq.

(** The numeric type of the vector entries and its zero. *)
Variable Numeric : Type.
Variable zero : Numeric.

(** ** The flat vector (anyvec.Vector) *)

(** Modelled from the spec: the flat vector type of the anyvec package, which
    is not part of these sources.  It offers [Len], [Slice(start, end)],
    [Concat(vectors...)] and [MakeVector(length)], the last giving zeros. *)
Definition Vector : Type := list Numeric.

(** Modelled from the spec: [v.Len()], the number of entries. *)
Definition Len (v : Vector) : nat := length v.

(** Modelled from the spec: [v.Slice(start, end)], the entries from [start]
    up to [end]; bounds outside the vector are a panic. *)
Definition Slice (v : Vector) (start stop : nat) : result Vector :=
  if (start <=? stop) && (stop <=? Len v)
  then Ok (firstn (stop - start) (skipn start v))
  else Err SliceOutOfRange.

(** Modelled from the spec: [Creator().Concat(chunks...)], a new vector with
    the entries of the chunks in order. *)
Definition Concat (chunks : list Vector) : Vector := concat chunks.

(** Modelled from the spec: [Creator().MakeVector(n)], [n] zeros. *)
Definition MakeVector (n : nat) : Vector := repeat zero n.

(** ** Batch *)

(** Modelled from the spec: the [Batch] struct, declared in another file of
    the package.  A batch is a packed vector and a presence mask. *)
Record Batch : Type := mkBatch {
  Packed : Vector;
  Present : list bool
}.

(** Modelled from the spec: the [NumPresent] method, declared with [Batch];
    it counts the [true] entries of the mask. *)
Definition NumPresent (b : Batch) : nat := count_true (Present b).

(** The batch invariant: the packed vector holds one chunk of a common width
    for each present sequence. *)
Definition Batch_inv (b : Batch) : Prop :=
  exists width, Len (Packed b) = width * NumPresent b.

(** [inc := b.Packed.Len() / n] *)
Definition width_of (b : Batch) : result nat :=
  let n := NumPresent b in
  match n with
  | 0 => Err DivideByZero
  | S _ => Ok (Len (Packed b) / n)
  end.

(** ** The loop state shared by Batch.Reduce and Batch.Expand

    [chunks], [chunkStart] and [chunkSize] are the three locals of the source;
    [trace] is a ghost field listing the accesses made so far. *)
Record chunker : Type := mkChunker {
  chunks : list Vector;
  chunkStart : nat;
  chunkSize : nat;
  trace : list access
}.

Definition chunker0 : chunker := mkChunker [] 0 0 [].

Definition touch (a : access) (st : chunker) : chunker :=
  mkChunker (chunks st) (chunkStart st) (chunkSize st) (trace st ++ [a]).

(** [chunks = append(chunks, b.Packed.Slice(chunkStart, chunkStart+chunkSize))],
    as it ends both functions. *)
Definition take_chunk (b : Batch) (st : chunker) : result chunker :=
  c <- Slice (Packed b) (chunkStart st) (chunkStart st + chunkSize st) ;;
  Ok (mkChunker (chunks st ++ [c]) (chunkStart st) (chunkSize st)
        (trace st ++ [SlicePacked (chunkStart st) (chunkStart st + chunkSize st)])).

(** The block guarded by [if chunkSize > 0] inside both loops: take the
    pending chunk, move [chunkStart] past it and reset [chunkSize]. *)
Definition flush (b : Batch) (st : chunker) : result chunker :=
  if 0 <? chunkSize st then
    st' <- take_chunk b st ;;
    Ok (mkChunker (chunks st') (chunkStart st' + chunkSize st') 0 (trace st'))
  else Ok st.

(** ** Batch.Reduce *)

Definition Reduce_step (b : Batch) (inc : nat) (st : chunker) (i : nat)
    (pres : bool) : result chunker :=
  bi <- index (Present b) i ;;
  let st := touch (IndexPresent i) st in
  if pres then
    if negb bi then Err (Message "cannot re-add sequences")
    else Ok (mkChunker (chunks st) (chunkStart st) (chunkSize st + inc) (trace st))
  else if bi then
    st' <- flush b st ;;
    Ok (mkChunker (chunks st') (chunkStart st' + inc) (chunkSize st') (trace st'))
  else Ok st.

(** [for i, pres := range present], from slot [i] on. *)
Fixpoint Reduce_loop (b : Batch) (inc : nat) (i : nat) (present : list bool)
    (st : chunker) : result chunker :=
  match present with
  | [] => Ok st
  | pres :: rest =>
      st' <- Reduce_step b inc st i pres ;;
      Reduce_loop b inc (S i) rest st'
  end.

(** The function up to its [return]: the final loop state. *)
Definition Reduce_run (b : Batch) (present : list bool) : result chunker :=
  inc <- width_of b ;;
  st <- Reduce_loop b inc 0 present chunker0 ;;
  if 0 <? chunkSize st then take_chunk b st else Ok st.

Definition Batch_Reduce (b : Batch) (present : list bool) : result Batch :=
  st <- Reduce_run b present ;;
  Ok (mkBatch (Concat (chunks st)) present).

(** ** Batch.Expand *)

Definition Expand_step (b : Batch) (inc : nat) (filler : Vector) (st : chunker)
    (i : nat) (pres : bool) : result chunker :=
  bi <- index (Present b) i ;;
  let st := touch (IndexPresent i) st in
  if bi then
    if negb pres then Err (Message "argument to Expand must be a superset")
    else Ok (mkChunker (chunks st) (chunkStart st) (chunkSize st + inc) (trace st))
  else if pres then
    st' <- flush b st ;;
    Ok (mkChunker (chunks st' ++ [filler]) (chunkStart st') (chunkSize st') (trace st'))
  else Ok st.

Fixpoint Expand_loop (b : Batch) (inc : nat) (filler : Vector) (i : nat)
    (present : list bool) (st : chunker) : result chunker :=
  match present with
  | [] => Ok st
  | pres :: rest =>
      st' <- Expand_step b inc filler st i pres ;;
      Expand_loop b inc filler (S i) rest st'
  end.

Definition Expand_run (b : Batch) (present : list bool) : result chunker :=
  inc <- width_of b ;;
  let filler := MakeVector inc in
  st <- Expand_loop b inc filler 0 present chunker0 ;;
  if 0 <? chunkSize st then take_chunk b st else Ok st.

Definition Batch_Expand (b : Batch) (present : list bool) : result Batch :=
  st <- Expand_run b present ;;
  Ok (mkBatch (Concat (chunks st)) present).

(** ** Sequences *)

(** Modelled from the spec: the [Seq] interface, declared in another file of
    the package.  A sequence is known here by the batches its [Output()]
    returns; [Source] stands for any implementation other than the two nodes
    of this file.  [reduceRes] and [pruneRes] are the structs of the source,
    with their input [In] and their cached output [Out]. *)
Inductive Seq : Type :=
| Source (out : list Batch)
| reduceRes (In : Seq) (Out : list Batch)
| pruneRes (In : Seq) (Out : list Batch).

(** Modelled from the spec: the [Output()] method of the [Seq] interface,
    for [Source].  The two nodes return their cached list, as in the source
    (reduce.go:123-125 and 174-176). *)
Definition Output (s : Seq) : list Batch :=
  match s with
  | Source out => out
  | reduceRes _ out => out
  | pruneRes _ out => out
  end.

(** ** Reduce (on sequences) *)

(** [p[i] = b && x.Present[i]] for the slots of [present] from [i] on.  Go's
    [&&] does not evaluate [x.Present[i]] when [b] is false. *)
Fixpoint intersect (present xPresent : list bool) (i : nat) : result (list bool) :=
  match present with
  | [] => Ok []
  | b :: rest =>
      v <- (if b then index xPresent i else Ok false) ;;
      p <- intersect rest xPresent (S i) ;;
      Ok (v :: p)
  end.

(** The loop over [s.Output()].  The source fills [res.Out] slot by slot and
    cuts it to [res.Out[:i]] when it breaks; the list built here is that
    prefix. *)
Fixpoint Reduce_batches (ins : list Batch) (present : list bool)
    : result (list Batch) :=
  match ins with
  | [] => Ok []
  | x :: rest =>
      p <- intersect present (Present x) 0 ;;
      r <- Batch_Reduce x p ;;
      if NumPresent r =? 0 then Ok []
      else
        out <- Reduce_batches rest present ;;
        Ok (r :: out)
  end.

Definition Reduce (s : Seq) (present : list bool) : result Seq :=
  out <- Reduce_batches (Output s) present ;;
  Ok (reduceRes s out).

(** ** reduceRes.Propagate *)

(** First loop: [newU[i] = x.Expand(inOut[i].Present)] for the batches of
    [u] from position [i] on. *)
Fixpoint expand_upstream (inOut : list Batch) (i : nat) (u : list Batch)
    : result (list Batch) :=
  match u with
  | [] => Ok []
  | x :: rest =>
      y <- index inOut i ;;
      e <- Batch_Expand x (Present y) ;;
      es <- expand_upstream inOut (S i) rest ;;
      Ok (e :: es)
  end.

(** The batch of the second loop: zeros in the shape of [inOut[i]]. *)
Definition zero_like (y : Batch) : Batch :=
  mkBatch (MakeVector (Len (Packed y))) (Present y).

(** The list [newU] that [Propagate] hands to [r.In.Propagate]; [grad] is
    passed on untouched and left out. *)
Definition reduceRes_Propagate (In : Seq) (u : list Batch) : result (list Batch) :=
  let inOut := Output In in
  es <- expand_upstream inOut 0 u ;;
  Ok (es ++ map zero_like (skipn (length u) inOut)).

(** ** Prune *)

(** The inner loop over [sOut[0].Present], from slot [j] on. *)
Fixpoint newPres (keeps xPresent : list bool) (j : nat) : result (list bool) :=
  match keeps with
  | [] => Ok []
  | keep :: rest =>
      if keep then
        v <- index xPresent j ;;
        tl <- newPres rest xPresent (S j) ;;
        Ok (v :: tl)
      else newPres rest xPresent (S j)
  end.

Fixpoint Prune_batches (first : Batch) (sOut : list Batch) : result (list Batch) :=
  match sOut with
  | [] => Ok []
  | x :: rest =>
      np <- newPres (Present first) (Present x) 0 ;;
      out <- Prune_batches first rest ;;
      Ok (mkBatch (Packed x) np :: out)
  end.

Definition Prune (s : Seq) : result Seq :=
  match Output s with
  | [] => Ok s
  | first :: _ =>
      out <- Prune_batches first (Output s) ;;
      Ok (pruneRes s out)
  end.

(** ** pruneRes.Propagate *)

(** The loop [matchingUp[i] = &Batch{Packed: x.Packed, Present: in[i].Present}]
    for the batches of [u] from position [i] on. *)
Fixpoint matching_upstream (inOut : list Batch) (i : nat) (u : list Batch)
    : result (list Batch) :=
  match u with
  | [] => Ok []
  | x :: rest =>
      y <- index inOut i ;;
      ms <- matching_upstream inOut (S i) rest ;;
      Ok (mkBatch (Packed x) (Present y) :: ms)
  end.

(** The list [matchingUp] that [Propagate] hands to [p.In.Propagate]. *)
Definition pruneRes_Propagate (In : Seq) (u : list Batch) : result (list Batch) :=
  matching_upstream (Output In) 0 u.

(** ** Propagate through nested nodes *)

(** [s.Propagate(u, grad)] by dynamic dispatch: each node of this file
    rebuilds the upstream list and calls its input; the result is the list
    that reaches the innermost [Source]. *)
Fixpoint Propagate (s : Seq) (u : list Batch) : result (list Batch) :=
  match s with
  | Source _ => Ok u
  | reduceRes In _ => newU <- reduceRes_Propagate In u ;; Propagate In newU
  | pruneRes In _ => m <- pruneRes_Propagate In u ;; Propagate In m
  end.

(** ** The contents of the results, in closed form *)

(** Walking both masks, one chunk of width [inc] of [v] belongs to each slot
    present in the batch.  [kept] keeps the chunks of the slots [present]
    selects: the data [Batch.Reduce] is to return. *)
Fixpoint kept (inc : nat) (bPresent present : list bool) (v : Vector) : Vector :=
  match present, bPresent with
  | pres :: ps, bi :: bs =>
      if bi then
        if pres then firstn inc v ++ kept inc bs ps (skipn inc v)
        else kept inc bs ps (skipn inc v)
      else kept inc bs ps v
  | _, _ => []
  end.

(** [spread] copies every chunk and puts [inc] zeros at each slot that only
    [present] has: the data [Batch.Expand] is to return. *)
Fixpoint spread (inc : nat) (bPresent present : list bool) (v : Vector) : Vector :=
  match present, bPresent with
  | pres :: ps, bi :: bs =>
      if bi then firstn inc v ++ spread inc bs ps (skipn inc v)
      else if pres then repeat zero inc ++ spread inc bs ps v
      else spread inc bs ps v
  | _, _ => []
  end.

(** Walking both masks as [kept] does: the chunk of each slot of the batch
    is kept where [present] has the slot and replaced by zeros where it has
    not. *)
Fixpoint blanked (inc : nat) (bPresent present : list bool) (v : Vector) : Vector :=
  match present, bPresent with
  | pres :: ps, bi :: bs =>
      if bi then
        (if pres then firstn inc v else repeat zero inc) ++
        blanked inc bs ps (skipn inc v)
      else blanked inc bs ps v
  | _, _ => []
  end.

(** The panic the loop of [Batch.Reduce] meets first, if any, read off the
    two masks: the walk leaves [bPresent], or a slot of [present] is absent
    from [bPresent]. *)
Fixpoint Reduce_panics (present bPresent : list bool) : option panic :=
  match present with
  | [] => None
  | pres :: ps =>
      match bPresent with
      | [] => Some IndexOutOfRange
      | bi :: bs =>
          if pres && negb bi then Some (Message "cannot re-add sequences")
          else Reduce_panics ps bs
      end
  end.

(** The same for the loop of [Batch.Expand]. *)
Fixpoint Expand_panics (present bPresent : list bool) : option panic :=
  match present with
  | [] => None
  | pres :: ps =>
      match bPresent with
      | [] => Some IndexOutOfRange
      | bi :: bs =>
          if bi && negb pres
          then Some (Message "argument to Expand must be a superset")
          else Expand_panics ps bs
      end
  end.

(** [present] is a subset of [bPresent]: same slots, and a slot of [present]
    is a slot of [bPresent]. *)
Definition subset (present bPresent : list bool) : Prop :=
  Forall2 (fun p b => p = true -> b = true) present bPresent.

Definition superset (present bPresent : list bool) : Prop :=
  subset bPresent present.

(** Position of slot [i] among the present slots of mask [m]. *)
Definition rank (m : list bool) (i : nat) : nat := count_true (firstn i m).

(** The [k]-th chunk of width [w] of [v]. *)
Definition chunk (w k : nat) (v : Vector) : Vector := firstn w (skipn (w * k) v).

(** An access is in range for [b]. *)
Definition in_range (b : Batch) (a : access) : Prop :=
  match a with
  | IndexPresent i => i < length (Present b)
  | SlicePacked start stop => start <= stop /\ stop <= Len (Packed b)
  end.

(** The pending chunk and the data gathered so far. *)
Definition pending (b : Batch) (st : chunker) : Vector :=
  firstn (chunkSize st) (skipn (chunkStart st) (Packed b)).

Definition gathered (b : Batch) (st : chunker) : Vector :=
  Concat (chunks st) ++ pending b st.

(** ** What the properties speak of *)

(** Some slot is [true] in [m1] and [false] in [m2]. *)
Definition exceeds (m1 m2 : list bool) : Prop :=
  exists i, nth_error m1 i = Some true /\ nth_error m2 i = Some false.

(** What the round trip is to deliver: [Expand] returns a batch, [Reduce] of
    it by the mask of [b] returns a batch, and that batch has the packed
    vector and the mask of [b]. *)
Definition round_trips (b : Batch) (present : list bool) : Prop :=
  exists e r,
    Batch_Expand b present = Ok e /\
    Batch_Reduce e (Present b) = Ok r /\
    Packed r = Packed b /\
    Present r = Present b.

(** The mask [p_t]: [p_t[i] = present[i] AND xPresent[i]], one entry for each
    slot of [present]. *)
Fixpoint and_mask (present xPresent : list bool) : list bool :=
  match present with
  | [] => []
  | p :: ps => (p && hd false xPresent) :: and_mask ps (tl xPresent)
  end.

(** The timesteps before the first one whose mask [p_t] has no [true]. *)
Fixpoint emitted (ins : list Batch) (present : list bool) : list Batch :=
  match ins with
  | [] => []
  | x :: rest =>
      if count_true (and_mask present (Present x)) =? 0 then []
      else x :: emitted rest present
  end.

(** Every timestep up to the first whose mask [p_t] is empty, that one
    included, has a present slot and a mask no shorter than [present]. *)
Fixpoint reducible (ins : list Batch) (present : list bool) : Prop :=
  match ins with
  | [] => True
  | x :: rest =>
      0 < NumPresent x /\
      length present <= length (Present x) /\
      (count_true (and_mask present (Present x)) <> 0 -> reducible rest present)
  end.

(** The batch [x] with the chunks of the slots that [present] does not
    select replaced by zeros. *)
Definition projected (present : list bool) (x : Batch) : Batch :=
  mkBatch
    (blanked (Len (Packed x) / NumPresent x) (Present x)
       (and_mask present (Present x)) (Packed x))
    (Present x).

(** An upstream batch matches the shape of an output batch. *)
Definition same_shape (x r : Batch) : Prop :=
  Present x = Present r /\ Len (Packed x) = Len (Packed r).

(** The slots [j, j+1, ...] that [keeps] marks, in slot order. *)
Fixpoint slots_from (j : nat) (keeps : list bool) : list nat :=
  match keeps with
  | [] => []
  | keep :: rest =>
      if keep then j :: slots_from (S j) rest else slots_from (S j) rest
  end.

(** The slots present at timestep 0. *)
Definition kept_slots (keeps : list bool) : list nat := slots_from 0 keeps.

(** Each batch of the sequence has the slots kept at timestep 0. *)
Definition prunable (s : Seq) : Prop :=
  match Output s with
  | [] => True
  | first :: _ =>
      Forall
        (fun x => Forall (fun j => j < length (Present x))
                    (kept_slots (Present first)))
        (Output s)
  end.

(** What the length property is to deliver, for each operation: a batch is
    returned, its packed length is [inc * count(present, true)] with
    [inc = b.Packed.length / count(b.Present, true)], and it satisfies the
    batch invariant. *)
Definition Reduce_sized (b : Batch) (present : list bool) : Prop :=
  exists r,
    Batch_Reduce b present = Ok r /\
    Len (Packed r) = Len (Packed b) / NumPresent b * count_true present /\
    Batch_inv r.

Definition Expand_sized (b : Batch) (present : list bool) : Prop :=
  exists r,
    Batch_Expand b present = Ok r /\
    Len (Packed r) = Len (Packed b) / NumPresent b * count_true present /\
    Batch_inv r.

(** What the forward pass is to deliver: a node whose output holds, for the
    emitted timesteps in order, [Batch.Reduce] of the batch by its mask
    [p_t], and nothing else. *)
Definition truncated (s : Seq) (present : list bool) : Prop :=
  exists out,
    Reduce s present = Ok (reduceRes s out) /\
    Forall2
      (fun x r => Batch_Reduce x (and_mask present (Present x)) = Ok r)
      (emitted (Output s) present) out /\
    emitted (Output s) present = firstn (length out) (Output s).

(** What [Propagate] is to hand to the input [s], given upstream [u]. *)
Definition shape_restored (s : Seq) (u : list Batch) : Prop :=
  exists newU,
    reduceRes_Propagate s u = Ok newU /\
    length newU = length (Output s) /\
    (forall t x, nth_error u t = Some x ->
       exists y e, nth_error (Output s) t = Some y /\
                   Batch_Expand x (Present y) = Ok e /\
                   nth_error newU t = Some e) /\
    (forall t y, length u <= t -> nth_error (Output s) t = Some y ->
       nth_error newU t =
         Some (mkBatch (repeat zero (Len (Packed y))) (Present y))).

(** ** Vector objects

    [Batch.Packed] is an [anyvec.Vector]: a reference to a vector object,
    which several batches may share.  Where it matters which object a batch
    holds, an object is an address into a store that gives the entries of
    every object, and a batch holds the address of its packed vector. *)
Definition ref : Type := nat.

Definition store : Type := list Vector.

(** A vector operation that makes a vector ([Slice], [Concat],
    [MakeVector]) adds an object to the store and returns its address. *)
Definition alloc (h : store) (v : Vector) : store * ref :=
  (h ++ [v], length h).

(** Modelled from the spec: the [Batch] struct, with its packed vector as
    the object it refers to. *)
Record BatchObj : Type := mkBatchObj {
  PackedRef : ref;
  PresentObj : list bool
}.

(** Modelled from the spec: the [Seq] interface over such batches, with the
    two nodes of the source. *)
Inductive SeqObj : Type :=
| SourceObj (out : list BatchObj)
| reduceResObj (In : SeqObj) (Out : list BatchObj)
| pruneResObj (In : SeqObj) (Out : list BatchObj).

Definition OutputObj (s : SeqObj) : list BatchObj :=
  match s with
  | SourceObj out => out
  | reduceResObj _ out => out
  | pruneResObj _ out => out
  end.

(** The loop of [Prune] over a store.  Its body calls no method of any
    vector; [out[i] = &Batch{Packed: x.Packed, Present: newPres}] puts the
    reference [x.Packed] itself in the new batch.  The store is handed from
    one iteration to the next as it is. *)
Fixpoint Prune_batches_obj (h : store) (first : BatchObj)
    (sOut : list BatchObj) : result (store * list BatchObj) :=
  match sOut with
  | [] => Ok (h, [])
  | x :: rest =>
      np <- newPres (PresentObj first) (PresentObj x) 0 ;;
      hr <- Prune_batches_obj h first rest ;;
      Ok (fst hr, mkBatchObj (PackedRef x) np :: snd hr)
  end.

(** [Prune] over a store: the store after the call and the sequence
    returned. *)
Definition Prune_obj (h : store) (s : SeqObj) : result (store * SeqObj) :=
  match OutputObj s with
  | [] => Ok (h, s)
  | first :: _ =>
      hr <- Prune_batches_obj h first (OutputObj s) ;;
      Ok (fst hr, pruneResObj s (snd hr))
  end.

(** The batch, and the sequence, that a batch or sequence of references
    stands for in a store. *)
Definition load (h : store) (x : BatchObj) : Batch :=
  mkBatch (nth (PackedRef x) h []) (PresentObj x).

Fixpoint load_seq (h : store) (s : SeqObj) : Seq :=
  match s with
  | SourceObj out => Source (map (load h) out)
  | reduceResObj i out => reduceRes (load_seq h i) (map (load h) out)
  | pruneResObj i out => pruneRes (load_seq h i) (map (load h) out)
  end.

(** Each batch of the sequence has the slots kept at timestep 0. *)
Definition prunable_obj (s : SeqObj) : Prop :=
  match OutputObj s with
  | [] => True
  | first :: _ =>
      Forall
        (fun x => Forall (fun j => j < length (PresentObj x))
                    (kept_slots (PresentObj first)))
        (OutputObj s)
  end.

(** What [Prune] is to deliver on a sequence that starts with [first]: the
    call returns with the store as it was, so no vector object was made or
    written; each output batch holds the vector object of its timestep's
    batch and, as its mask, the values of that timestep's mask at the slots
    kept at timestep 0. *)
Definition masks_rewritten (h : store) (s : SeqObj) (first : BatchObj) : Prop :=
  exists out,
    Prune_obj h s = Ok (h, pruneResObj s out) /\
    Forall2
      (fun x r =>
         PackedRef r = PackedRef x /\
         Forall2 (fun j v => nth_error (PresentObj x) j = Some v)
           (kept_slots (PresentObj first)) (PresentObj r))
      (OutputObj s) out.

(** [Prune] returns every mask as it was. *)
Definition masks_unchanged (s : Seq) : Prop :=
  exists out,
    Prune s = Ok (pruneRes s out) /\
    Forall2 (fun x r => Present r = Present x) (Output s) out.

Unset Implicit Arguments.

(** ** Lists and masks *)

Lemma firstn_plus (A : Type) (a c : nat) (l : list A) :
  firstn (a + c) l = firstn a l ++ firstn c (skipn a l).
Proof.
  revert l; induction a as [|a IH]; intros l; simpl.
  - reflexivity.
  - destruct l as [|x l]; simpl.
    + now rewrite firstn_nil.
    + now rewrite IH.
Qed.

Lemma skipn_plus (A : Type) (a c : nat) (l : list A) :
  skipn (a + c) l = skipn c (skipn a l).
Proof.
  rewrite skipn_skipn. f_equal. lia.
Qed.

Lemma skipn_nil_index (A : Type) (l : list A) (i : nat) :
  skipn i l = [] -> index l i = Err IndexOutOfRange.
Proof.
  intros H. unfold index.
  assert (Hlen : length l <= i).
  { apply (f_equal (@length A)) in H. rewrite length_skipn in H. simpl in H. lia. }
  apply nth_error_None in Hlen. now rewrite Hlen.
Qed.

Lemma skipn_cons_index (A : Type) (l : list A) (i : nat) (x : A) (tl : list A) :
  skipn i l = x :: tl ->
  index l i = Ok x /\ skipn (S i) l = tl /\ i < length l.
Proof.
  revert l; induction i as [|i IH]; intros l H.
  - destruct l as [|y l]; simpl in H; [discriminate|].
    injection H as -> ->. unfold index; simpl. repeat split; lia.
  - destruct l as [|y l]; simpl in H; [discriminate|].
    destruct (IH _ H) as (Hi & Hs & Hl).
    unfold index in *; simpl. repeat split; auto. simpl; lia.
Qed.

Lemma count_true_le (m : list bool) : count_true m <= length m.
Proof.
  induction m as [|[] m IH]; simpl; lia.
Qed.

Lemma count_true_app (m1 m2 : list bool) :
  count_true (m1 ++ m2) = count_true m1 + count_true m2.
Proof.
  induction m1 as [|[] m1 IH]; simpl; lia.
Qed.

(** Go's quotient, times the divisor, stays within the dividend. *)
Lemma width_fits (b : Batch) (inc : nat) :
  width_of b = Ok inc -> inc * NumPresent b <= Len (Packed b).
Proof.
  unfold width_of. destruct (NumPresent b) as [|n] eqn:Hn; [discriminate|].
  intros H; injection H as <-.
  rewrite Nat.mul_comm. exact (Nat.Div0.mul_div_le (Len (Packed b)) (S n)).
Qed.

Lemma width_of_inv (b : Batch) (w : nat) :
  0 < NumPresent b -> Len (Packed b) = w * NumPresent b -> width_of b = Ok w.
Proof.
  unfold width_of. intros Hn Hl. destruct (NumPresent b) as [|n] eqn:E; [lia|].
  rewrite Hl. f_equal. apply (Nat.div_mul w (S n)). lia.
Qed.

Lemma width_of_some (b : Batch) :
  0 < NumPresent b -> width_of b = Ok (Len (Packed b) / NumPresent b).
Proof.
  unfold width_of. destruct (NumPresent b); [lia|reflexivity].
Qed.

(** ** Taking chunks *)

Lemma Slice_fits (v : Vector) (start size : nat) :
  start + size <= Len v ->
  Slice v start (start + size) = Ok (firstn size (skipn start v)).
Proof.
  intros H. unfold Slice.
  replace (start + size - start) with size by lia.
  destruct (Nat.leb_spec start (start + size)); [|lia].
  destruct (Nat.leb_spec (start + size) (Len v)); [|lia].
  reflexivity.
Qed.

Lemma Concat_snoc (cs : list Vector) (c : Vector) :
  Concat (cs ++ [c]) = Concat cs ++ c.
Proof.
  unfold Concat. rewrite concat_app. simpl. now rewrite app_nil_r.
Qed.

Lemma gathered_empty (b : Batch) (st : chunker) :
  chunkSize st = 0 -> gathered b st = Concat (chunks st).
Proof.
  intros H. unfold gathered, pending. rewrite H. simpl. apply app_nil_r.
Qed.

Lemma take_chunk_ok (b : Batch) (st : chunker) :
  chunkStart st + chunkSize st <= Len (Packed b) ->
  Forall (in_range b) (trace st) ->
  exists st',
    take_chunk b st = Ok st' /\
    Concat (chunks st') = gathered b st /\
    chunkStart st' = chunkStart st /\
    chunkSize st' = chunkSize st /\
    Forall (in_range b) (trace st').
Proof.
  intros Hfit Htr. unfold take_chunk. rewrite Slice_fits by assumption. simpl.
  eexists; split; [reflexivity|]. simpl. repeat split.
  - apply Concat_snoc.
  - apply Forall_app; split; [assumption|].
    constructor; [|constructor]. simpl. lia.
Qed.

Lemma flush_ok (b : Batch) (st : chunker) :
  chunkStart st + chunkSize st <= Len (Packed b) ->
  Forall (in_range b) (trace st) ->
  exists st',
    flush b st = Ok st' /\
    Concat (chunks st') = gathered b st /\
    chunkStart st' = chunkStart st + chunkSize st /\
    chunkSize st' = 0 /\
    Forall (in_range b) (trace st').
Proof.
  intros Hfit Htr. unfold flush.
  destruct (Nat.ltb_spec 0 (chunkSize st)) as [Hpos|Hzero].
  - destruct (take_chunk_ok b st Hfit Htr) as (st1 & -> & Hc & Hs & Hz & Ht).
    simpl. eexists; split; [reflexivity|]. simpl. repeat split; auto.
  - exists st. assert (E : chunkSize st = 0) by lia.
    repeat split; auto.
    + symmetry. now apply gathered_empty.
    + lia.
Qed.

(** The last three lines before [return], common to both functions. *)
Lemma last_chunk_ok (b : Batch) (st : chunker) :
  chunkStart st + chunkSize st <= Len (Packed b) ->
  Forall (in_range b) (trace st) ->
  exists st',
    (if 0 <? chunkSize st then take_chunk b st else Ok st) = Ok st' /\
    Concat (chunks st') = gathered b st /\
    Forall (in_range b) (trace st').
Proof.
  intros Hfit Htr.
  destruct (Nat.ltb_spec 0 (chunkSize st)) as [Hpos|Hzero].
  - destruct (take_chunk_ok b st Hfit Htr) as (st1 & -> & Hc & _ & _ & Ht).
    now exists st1.
  - exists st. repeat split; auto.
    symmetry. apply gathered_empty. lia.
Qed.

(** ** The loop of Batch.Reduce *)

(** From slot [i] on, with [bs] the rest of [b.Present]: the loop panics as
    [Reduce_panics] says and otherwise gathers the kept chunks, staying
    inside the packed vector. *)
Lemma Reduce_loop_spec (b : Batch) (inc : nat) :
  forall (ps bs : list bool) (i : nat) (st : chunker),
    skipn i (Present b) = bs ->
    chunkStart st + chunkSize st + inc * count_true bs <= Len (Packed b) ->
    Forall (in_range b) (trace st) ->
    match Reduce_panics ps bs with
    | Some e => Reduce_loop b inc i ps st = Err e
    | None =>
        exists st',
          Reduce_loop b inc i ps st = Ok st' /\
          gathered b st' =
            gathered b st ++
            kept inc bs ps (skipn (chunkStart st + chunkSize st) (Packed b)) /\
          chunkStart st' + chunkSize st' <= Len (Packed b) /\
          Forall (in_range b) (trace st')
    end.
Proof.
  induction ps as [|pres ps IH]; intros bs i st Hbs Hfit Htr.
  - simpl. exists st. repeat split; auto.
    + destruct bs; simpl; now rewrite app_nil_r.
    + lia.
  - destruct bs as [|bi bs].
    + simpl. unfold Reduce_step. now rewrite (skipn_nil_index _ _ _ Hbs).
    + destruct (skipn_cons_index _ _ _ _ _ Hbs) as (Hidx & Hnext & Hlt).
      assert (Htr1 : Forall (in_range b) (trace st ++ [IndexPresent i])).
      { apply Forall_app; split; [assumption|]. constructor; [exact Hlt|constructor]. }
      cbn [Reduce_panics Reduce_loop]. unfold Reduce_step. rewrite Hidx.
      cbn [bind]. unfold touch. cbn [chunks chunkStart chunkSize trace].
      destruct pres, bi; cbn [andb negb kept count_true] in *;
        rewrite ?Nat.mul_succ_r in Hfit.
      * (* kept slot: the pending chunk grows *)
        specialize (IH bs (S i)
          (mkChunker (chunks st) (chunkStart st) (chunkSize st + inc)
             (trace st ++ [IndexPresent i])) Hnext).
        cbn [chunks chunkStart chunkSize trace] in IH.
        match type of IH with ?P -> _ => assert (HP : P) by (clear IH; lia); specialize (IH HP Htr1); clear HP end.
        destruct (Reduce_panics ps bs); [exact IH|].
        destruct IH as (st' & Hrun & Hdata & Hfit' & Htr').
        exists st'. repeat split; auto.
        rewrite Hdata. unfold gathered, pending.
        cbn [chunks chunkStart chunkSize].
        rewrite firstn_plus, <- !app_assoc, !skipn_skipn.
        repeat (f_equal; try lia).
      * reflexivity.
      * (* dropped slot: flush, then step over its chunk *)
        set (st0 := mkChunker (chunks st) (chunkStart st) (chunkSize st)
                      (trace st ++ [IndexPresent i])).
        destruct (flush_ok b st0) as (st1 & Hfl & Hc1 & Hs1 & Hz1 & Ht1);
          [cbn; lia | exact Htr1 |].
        rewrite Hfl. cbn [bind].
        unfold st0 in Hs1; cbn [chunkStart chunkSize] in Hs1.
        specialize (IH bs (S i)
          (mkChunker (chunks st1) (chunkStart st1 + inc) (chunkSize st1)
             (trace st1)) Hnext).
        cbn [chunks chunkStart chunkSize trace] in IH.
        rewrite Hs1, Hz1 in IH |- *.
        match type of IH with ?P -> _ => assert (HP : P) by (clear IH; lia); specialize (IH HP Ht1); clear HP end.
        destruct (Reduce_panics ps bs); [exact IH|].
        destruct IH as (st' & Hrun & Hdata & Hfit' & Htr').
        exists st'. repeat split; auto.
        rewrite Hdata. f_equal.
        -- unfold gathered at 1. unfold pending.
           cbn [chunks chunkStart chunkSize]. simpl firstn.
           rewrite app_nil_r. exact Hc1.
        -- rewrite !skipn_skipn. repeat (f_equal; try lia).
      * (* slot absent from both *)
        specialize (IH bs (S i)
          (mkChunker (chunks st) (chunkStart st) (chunkSize st)
             (trace st ++ [IndexPresent i])) Hnext).
        cbn [chunks chunkStart chunkSize trace] in IH.
        match type of IH with ?P -> _ => assert (HP : P) by (clear IH; lia); specialize (IH HP Htr1); clear HP end.
        destruct (Reduce_panics ps bs); [exact IH|].
        destruct IH as (st' & Hrun & Hdata & Hfit' & Htr').
        exists st'. repeat split; auto.
Qed.

(** ** The loop of Batch.Expand *)

Lemma Expand_loop_spec (b : Batch) (inc : nat) :
  forall (ps bs : list bool) (i : nat) (st : chunker),
    skipn i (Present b) = bs ->
    chunkStart st + chunkSize st + inc * count_true bs <= Len (Packed b) ->
    Forall (in_range b) (trace st) ->
    match Expand_panics ps bs with
    | Some e => Expand_loop b inc (MakeVector inc) i ps st = Err e
    | None =>
        exists st',
          Expand_loop b inc (MakeVector inc) i ps st = Ok st' /\
          gathered b st' =
            gathered b st ++
            spread inc bs ps (skipn (chunkStart st + chunkSize st) (Packed b)) /\
          chunkStart st' + chunkSize st' <= Len (Packed b) /\
          Forall (in_range b) (trace st')
    end.
Proof.
  induction ps as [|pres ps IH]; intros bs i st Hbs Hfit Htr.
  - simpl. exists st. repeat split; auto.
    + destruct bs; simpl; now rewrite app_nil_r.
    + lia.
  - destruct bs as [|bi bs].
    + simpl. unfold Expand_step. now rewrite (skipn_nil_index _ _ _ Hbs).
    + destruct (skipn_cons_index _ _ _ _ _ Hbs) as (Hidx & Hnext & Hlt).
      assert (Htr1 : Forall (in_range b) (trace st ++ [IndexPresent i])).
      { apply Forall_app; split; [assumption|]. constructor; [exact Hlt|constructor]. }
      cbn [Expand_panics Expand_loop]. unfold Expand_step. rewrite Hidx.
      cbn [bind]. unfold touch. cbn [chunks chunkStart chunkSize trace].
      destruct bi, pres; cbn [andb negb spread count_true] in *;
        rewrite ?Nat.mul_succ_r in Hfit.
      * (* slot of the batch: the pending chunk grows *)
        specialize (IH bs (S i)
          (mkChunker (chunks st) (chunkStart st) (chunkSize st + inc)
             (trace st ++ [IndexPresent i])) Hnext).
        cbn [chunks chunkStart chunkSize trace] in IH.
        match type of IH with ?P -> _ =>
          assert (HP : P) by (clear IH; lia); specialize (IH HP Htr1); clear HP end.
        destruct (Expand_panics ps bs); [exact IH|].
        destruct IH as (st' & Hrun & Hdata & Hfit' & Htr').
        exists st'. repeat split; auto.
        rewrite Hdata. unfold gathered, pending.
        cbn [chunks chunkStart chunkSize].
        rewrite firstn_plus, <- !app_assoc, !skipn_skipn.
        repeat (f_equal; try lia).
      * reflexivity.
      * (* new slot: flush, then the filler *)
        set (st0 := mkChunker (chunks st) (chunkStart st) (chunkSize st)
                      (trace st ++ [IndexPresent i])).
        destruct (flush_ok b st0) as (st1 & Hfl & Hc1 & Hs1 & Hz1 & Ht1);
          [cbn; lia | exact Htr1 |].
        rewrite Hfl. cbn [bind].
        unfold st0 in Hs1; cbn [chunkStart chunkSize] in Hs1.
        specialize (IH bs (S i)
          (mkChunker (chunks st1 ++ [MakeVector inc]) (chunkStart st1)
             (chunkSize st1) (trace st1)) Hnext).
        cbn [chunks chunkStart chunkSize trace] in IH.
        rewrite Hs1, Hz1 in IH |- *.
        match type of IH with ?P -> _ =>
          assert (HP : P) by (clear IH; lia); specialize (IH HP Ht1); clear HP end.
        destruct (Expand_panics ps bs); [exact IH|].
        destruct IH as (st' & Hrun & Hdata & Hfit' & Htr').
        exists st'. repeat split; auto.
        rewrite Hdata, app_assoc. f_equal.
        -- unfold gathered at 1. unfold pending.
           cbn [chunks chunkStart chunkSize]. simpl firstn.
           rewrite app_nil_r, Concat_snoc, Hc1. reflexivity.
        -- repeat (f_equal; try lia).
      * (* slot absent from both *)
        specialize (IH bs (S i)
          (mkChunker (chunks st) (chunkStart st) (chunkSize st)
             (trace st ++ [IndexPresent i])) Hnext).
        cbn [chunks chunkStart chunkSize trace] in IH.
        match type of IH with ?P -> _ =>
          assert (HP : P) by (clear IH; lia); specialize (IH HP Htr1); clear HP end.
        destruct (Expand_panics ps bs); [exact IH|].
        destruct IH as (st' & Hrun & Hdata & Hfit' & Htr').
        exists st'. repeat split; auto.
Qed.

(** ** Batch.Reduce and Batch.Expand as a whole *)

(** For a batch with a present sequence, [Batch.Reduce] either panics as the
    masks say or returns the kept chunks; it never leaves the packed vector. *)
Lemma Reduce_run_spec (b : Batch) (present : list bool) (inc : nat) :
  width_of b = Ok inc ->
  match Reduce_panics present (Present b) with
  | Some e => Reduce_run b present = Err e
  | None =>
      exists st,
        Reduce_run b present = Ok st /\
        Concat (chunks st) = kept inc (Present b) present (Packed b) /\
        Forall (in_range b) (trace st)
  end.
Proof.
  intros Hw. unfold Reduce_run. rewrite Hw. cbn [bind].
  pose proof (width_fits b inc Hw) as Hfit.
  pose proof (Reduce_loop_spec b inc present (Present b) 0 chunker0
                eq_refl) as H.
  cbn [chunker0 chunkStart chunkSize trace] in H.
  specialize (H ltac:(unfold NumPresent in Hfit; simpl; lia) (Forall_nil _)).
  destruct (Reduce_panics present (Present b)).
  - now rewrite H.
  - destruct H as (st & -> & Hdata & Hfit' & Htr). cbn [bind].
    destruct (last_chunk_ok b st Hfit' Htr) as (st' & Hrun & Hc & Htr').
    exists st'. repeat split; auto.
    rewrite Hc, Hdata. reflexivity.
Qed.

Lemma Expand_run_spec (b : Batch) (present : list bool) (inc : nat) :
  width_of b = Ok inc ->
  match Expand_panics present (Present b) with
  | Some e => Expand_run b present = Err e
  | None =>
      exists st,
        Expand_run b present = Ok st /\
        Concat (chunks st) = spread inc (Present b) present (Packed b) /\
        Forall (in_range b) (trace st)
  end.
Proof.
  intros Hw. unfold Expand_run. rewrite Hw. cbn [bind].
  pose proof (width_fits b inc Hw) as Hfit.
  pose proof (Expand_loop_spec b inc present (Present b) 0 chunker0
                eq_refl) as H.
  cbn [chunker0 chunkStart chunkSize trace] in H.
  specialize (H ltac:(unfold NumPresent in Hfit; simpl; lia) (Forall_nil _)).
  destruct (Expand_panics present (Present b)).
  - now rewrite H.
  - destruct H as (st & -> & Hdata & Hfit' & Htr). cbn [bind].
    destruct (last_chunk_ok b st Hfit' Htr) as (st' & Hrun & Hc & Htr').
    exists st'. repeat split; auto.
    rewrite Hc, Hdata. reflexivity.
Qed.

Lemma Batch_Reduce_spec (b : Batch) (present : list bool) (inc : nat) :
  width_of b = Ok inc ->
  Batch_Reduce b present =
    match Reduce_panics present (Present b) with
    | Some e => Err e
    | None => Ok (mkBatch (kept inc (Present b) present (Packed b)) present)
    end.
Proof.
  intros Hw. pose proof (Reduce_run_spec b present inc Hw) as H.
  unfold Batch_Reduce.
  destruct (Reduce_panics present (Present b)).
  - now rewrite H.
  - destruct H as (st & -> & Hc & _). cbn [bind]. now rewrite Hc.
Qed.

Lemma Batch_Expand_spec (b : Batch) (present : list bool) (inc : nat) :
  width_of b = Ok inc ->
  Batch_Expand b present =
    match Expand_panics present (Present b) with
    | Some e => Err e
    | None => Ok (mkBatch (spread inc (Present b) present (Packed b)) present)
    end.
Proof.
  intros Hw. pose proof (Expand_run_spec b present inc Hw) as H.
  unfold Batch_Expand.
  destruct (Expand_panics present (Present b)).
  - now rewrite H.
  - destruct H as (st & -> & Hc & _). cbn [bind]. now rewrite Hc.
Qed.

(** Without a present sequence the division panics first. *)
Lemma width_of_empty (b : Batch) :
  NumPresent b = 0 -> width_of b = Err DivideByZero.
Proof.
  unfold width_of. now intros ->.
Qed.

(** ** Masks that respect the preconditions *)

Lemma subset_length (present bPresent : list bool) :
  subset present bPresent -> length present = length bPresent.
Proof.
  intros H; induction H; simpl; congruence.
Qed.

Lemma subset_count (present bPresent : list bool) :
  subset present bPresent -> count_true present <= count_true bPresent.
Proof.
  intros H; induction H as [|p bi ps bs Hp _ IH]; simpl; [lia|].
  destruct p, bi; try lia; specialize (Hp eq_refl); discriminate.
Qed.

Lemma subset_Reduce_panics (present bPresent : list bool) :
  subset present bPresent -> Reduce_panics present bPresent = None.
Proof.
  intros H; induction H as [|p bi ps bs Hp _ IH]; simpl; [reflexivity|].
  destruct p, bi; simpl; auto. specialize (Hp eq_refl). discriminate.
Qed.

Lemma superset_Expand_panics (present bPresent : list bool) :
  superset present bPresent -> Expand_panics present bPresent = None.
Proof.
  unfold superset.
  intros H; induction H as [|bi p bs ps Hp _ IH]; simpl; [reflexivity|].
  destruct p, bi; simpl; auto. specialize (Hp eq_refl). discriminate.
Qed.

Lemma subset_refl (m : list bool) : subset m m.
Proof.
  induction m; constructor; auto.
Qed.

(** ** Lengths of the results *)

Lemma length_firstn_fits (A : Type) (n : nat) (l : list A) :
  n <= length l -> length (firstn n l) = n.
Proof.
  intros H. rewrite length_firstn. lia.
Qed.

Lemma kept_length (inc : nat) :
  forall (present bPresent : list bool) (v : Vector),
    subset present bPresent ->
    inc * count_true bPresent <= Len v ->
    Len (kept inc bPresent present v) = inc * count_true present.
Proof.
  unfold Len.
  intros present bPresent v H; revert v.
  induction H as [|p bi ps bs Hp _ IH]; intros v Hfit; simpl; [lia|].
  destruct bi; simpl in Hfit; rewrite ?Nat.mul_succ_r in Hfit.
  - assert (Hrest : inc * count_true bs <= length (skipn inc v))
      by (rewrite length_skipn; lia).
    destruct p; simpl.
    + rewrite length_app, length_firstn_fits by lia.
      rewrite (IH _ Hrest). lia.
    + now apply IH.
  - destruct p; [specialize (Hp eq_refl); discriminate|].
    now apply IH.
Qed.

Lemma spread_length (inc : nat) :
  forall (present bPresent : list bool) (v : Vector),
    superset present bPresent ->
    inc * count_true bPresent <= Len v ->
    Len (spread inc bPresent present v) = inc * count_true present.
Proof.
  unfold Len, superset.
  intros present bPresent v H; revert v.
  induction H as [|bi p bs ps Hp _ IH]; intros v Hfit; simpl; [lia|].
  destruct bi; simpl in Hfit; rewrite ?Nat.mul_succ_r in Hfit.
  - rewrite (Hp eq_refl). simpl.
    assert (Hrest : inc * count_true bs <= length (skipn inc v))
      by (rewrite length_skipn; lia).
    rewrite length_app, length_firstn_fits by lia.
    rewrite (IH _ Hrest). lia.
  - destruct p; simpl.
    + rewrite length_app, repeat_length, (IH _ Hfit). lia.
    + now apply IH.
Qed.

(** ** Reduce undoes Expand, on the data *)

Lemma kept_spread (inc : nat) :
  forall (present bPresent : list bool) (v : Vector),
    superset present bPresent ->
    inc * count_true bPresent <= Len v ->
    kept inc present bPresent (spread inc bPresent present v) =
      firstn (inc * count_true bPresent) v.
Proof.
  unfold Len, superset.
  intros present bPresent v H; revert v.
  induction H as [|bi p bs ps Hp _ IH]; intros v Hfit; simpl.
  - now rewrite Nat.mul_0_r.
  - destruct bi; simpl in Hfit |- *; rewrite ?Nat.mul_succ_r in Hfit |- *.
    + rewrite (Hp eq_refl).
      assert (Hrest : inc * count_true bs <= length (skipn inc v))
        by (rewrite length_skipn; lia).
      assert (Hl : length (firstn inc v) = inc)
        by (apply length_firstn_fits; lia).
      rewrite firstn_app, skipn_app, Hl, Nat.sub_diag, firstn_firstn.
      rewrite Nat.min_id, firstn_O, app_nil_r, skipn_O.
      rewrite skipn_all2 by lia. simpl.
      rewrite (IH _ Hrest).
      rewrite (Nat.add_comm _ inc), firstn_plus. reflexivity.
    + destruct p; simpl.
      * rewrite skipn_app, repeat_length, Nat.sub_diag, skipn_O.
        rewrite skipn_all2 by (rewrite repeat_length; lia). simpl.
        now apply IH.
      * now apply IH.
Qed.

(** ** Properties of Batch.Reduce and Batch.Expand *)

(** C1, amended: for every batch [b] that satisfies the batch invariant and
    has at least one present slot, and every mask [present] of the same
    length that is a superset of [b.Present], [Reduce(Expand(b, present),
    b.Present)] returns a batch whose packed vector is that of [b], entry
    for entry, and whose mask is [b.Present]. *)
Theorem Reduce_Expand_round_trip (b : Batch) (present : list bool) :
  Batch_inv b ->
  0 < NumPresent b ->
  superset present (Present b) ->
  round_trips b present.
Proof.
  intros [w Hinv] Hn Hsup.
  pose proof (width_of_inv b w Hn Hinv) as Hw.
  assert (Hfit : w * count_true (Present b) <= Len (Packed b))
    by (unfold NumPresent in Hinv; lia).
  set (e := mkBatch (spread w (Present b) present (Packed b)) present).
  assert (He : Batch_Expand b present = Ok e).
  { rewrite (Batch_Expand_spec b present w Hw).
    now rewrite (superset_Expand_panics _ _ Hsup). }
  assert (Hwe : width_of e = Ok w).
  { apply width_of_inv; unfold NumPresent; cbn [e Present Packed].
    - pose proof (subset_count _ _ Hsup). unfold NumPresent in Hn. lia.
    - now apply spread_length. }
  exists e, (mkBatch (Packed b) (Present b)).
  split; [exact He|]. split; [|split; reflexivity].
  rewrite (Batch_Reduce_spec e (Present b) w Hwe). cbn [e Present Packed].
  rewrite (subset_Reduce_panics _ _ Hsup).
  rewrite (kept_spread w present (Present b) (Packed b) Hsup Hfit).
  unfold NumPresent in Hinv. rewrite <- Hinv. unfold Len.
  now rewrite firstn_all.
Qed.

(** C5, amended: for every batch [b] with at least one present slot and
    every mask [present] of the same length that respects the precondition
    of the operation, [Reduce(b, present)] and [Expand(b, present)] return a
    batch whose packed length is [inc * count(present, true)], with
    [inc = b.Packed.length / count(b.Present, true)]; the result satisfies
    the batch invariant. *)
Theorem Reduce_Expand_length (b : Batch) (present : list bool) :
  Batch_inv b ->
  0 < NumPresent b ->
  (subset present (Present b) -> Reduce_sized b present) /\
  (superset present (Present b) -> Expand_sized b present).
Proof.
  unfold Reduce_sized, Expand_sized. intros _ Hn.
  pose proof (width_of_some b Hn) as Hw.
  pose proof (width_fits b _ Hw) as Hfit. unfold NumPresent in Hfit.
  split; intros Hmask.
  - rewrite (Batch_Reduce_spec b present _ Hw).
    rewrite (subset_Reduce_panics _ _ Hmask).
    eexists; split; [reflexivity|]. cbn [Packed].
    pose proof (kept_length _ _ _ (Packed b) Hmask Hfit) as Hl.
    split; [exact Hl|]. eexists. unfold NumPresent. cbn [Packed Present].
    exact Hl.
  - rewrite (Batch_Expand_spec b present _ Hw).
    rewrite (superset_Expand_panics _ _ Hmask).
    eexists; split; [reflexivity|]. cbn [Packed].
    pose proof (spread_length _ _ _ (Packed b) Hmask Hfit) as Hl.
    split; [exact Hl|]. eexists. unfold NumPresent. cbn [Packed Present].
    exact Hl.
Qed.

(** C10: both operations start with [inc := b.Packed.Len() / b.NumPresent()];
    for a batch without a present sequence each of them panics with an
    integer division by zero, whatever the mask, and so neither returns
    unless the batch has a present sequence. *)
Theorem empty_batch_divides_by_zero (b : Batch) (present : list bool) :
  NumPresent b = 0 ->
  Batch_Reduce b present = Err DivideByZero /\
  Batch_Expand b present = Err DivideByZero /\
  Reduce_run b present = Err DivideByZero /\
  Expand_run b present = Err DivideByZero.
Proof.
  intros Hn. pose proof (width_of_empty b Hn) as Hw.
  unfold Batch_Reduce, Batch_Expand, Reduce_run, Expand_run.
  rewrite Hw. repeat split.
Qed.

Lemma exceeds_cons (p1 p2 : bool) (m1 m2 : list bool) :
  exceeds (p1 :: m1) (p2 :: m2) <->
  (p1 = true /\ p2 = false) \/ exceeds m1 m2.
Proof.
  split.
  - intros [[|i] [H1 H2]]; simpl in *.
    + left. split; congruence.
    + right. now exists i.
  - intros [[-> ->]|[i H]].
    + now exists 0.
    + now exists (S i).
Qed.

Lemma subset_not_exceeds (m1 m2 : list bool) :
  subset m1 m2 -> ~ exceeds m1 m2.
Proof.
  intros H; induction H as [|p1 p2 m1 m2 Hp _ IH].
  - intros [[|i] [H _]]; discriminate.
  - rewrite exceeds_cons. intros [[-> ->]|H]; [|auto].
    specialize (Hp eq_refl). discriminate.
Qed.

(** On masks of one length the walk of [Batch.Reduce] meets no panic but
    its own, and meets it exactly when [present] exceeds [bPresent]. *)
Lemma Reduce_panics_cases :
  forall present bPresent : list bool,
    length present = length bPresent ->
    (Reduce_panics present bPresent = None /\ subset present bPresent) \/
    (Reduce_panics present bPresent = Some (Message "cannot re-add sequences") /\
     exceeds present bPresent).
Proof.
  induction present as [|p ps IH]; intros [|bi bs] Hlen; try discriminate.
  - left. split; [reflexivity|constructor].
  - injection Hlen as Hlen. destruct (IH bs Hlen) as [[Hp Hs]|[Hp He]];
      destruct p, bi; cbn [Reduce_panics andb negb].
    all: try (right; split; [reflexivity || exact Hp|];
              apply exceeds_cons; auto; fail).
    all: left; split; [exact Hp|]; constructor; auto; discriminate.
Qed.

Lemma Expand_panics_cases :
  forall present bPresent : list bool,
    length present = length bPresent ->
    (Expand_panics present bPresent = None /\ superset present bPresent) \/
    (Expand_panics present bPresent =
       Some (Message "argument to Expand must be a superset") /\
     exceeds bPresent present).
Proof.
  unfold superset.
  induction present as [|p ps IH]; intros [|bi bs] Hlen; try discriminate.
  - left. split; [reflexivity|constructor].
  - injection Hlen as Hlen. destruct (IH bs Hlen) as [[Hp Hs]|[Hp He]];
      destruct p, bi; cbn [Expand_panics andb negb].
    all: try (right; split; [reflexivity || exact Hp|];
              apply exceeds_cons; auto; fail).
    all: left; split; [exact Hp|]; constructor; auto; discriminate.
Qed.

(** C4: for every batch [b] with at least one present slot and every mask
    [present] of the same length, [Batch.Reduce] panics with "cannot re-add
    sequences" exactly when some slot is [true] in [present] and [false] in
    [b.Present], and [Batch.Expand] panics with "argument to Expand must be
    a superset" exactly when some slot is [true] in [b.Present] and [false]
    in [present]; without such a slot each returns a batch. *)
Theorem precondition_panics (b : Batch) (present : list bool) :
  0 < NumPresent b ->
  length present = length (Present b) ->
  (Batch_Reduce b present = Err (Message "cannot re-add sequences") <->
   exceeds present (Present b)) /\
  (Batch_Expand b present = Err (Message "argument to Expand must be a superset") <->
   exceeds (Present b) present) /\
  (~ exceeds present (Present b) -> exists r, Batch_Reduce b present = Ok r) /\
  (~ exceeds (Present b) present -> exists r, Batch_Expand b present = Ok r).
Proof.
  intros Hn Hlen.
  pose proof (width_of_some b Hn) as Hw.
  rewrite (Batch_Reduce_spec b present _ Hw), (Batch_Expand_spec b present _ Hw).
  destruct (Reduce_panics_cases present (Present b) Hlen) as [[-> Hr]|[-> Hr]];
    destruct (Expand_panics_cases present (Present b) Hlen) as [[-> He]|[-> He]].
  all: repeat split; intros H; try discriminate; try assumption;
       try (eexists; reflexivity).
  all: try (exfalso; apply (subset_not_exceeds _ _ Hr); assumption).
  all: try (exfalso; apply (subset_not_exceeds _ _ He); assumption).
  all: contradiction.
Qed.

(** ** The trace reads every slot once *)

Lemma indexed_app (t1 t2 : list access) :
  indexed (t1 ++ t2) = indexed t1 ++ indexed t2.
Proof.
  induction t1 as [|[i|a c] t1 IH]; simpl; [reflexivity| |exact IH].
  now rewrite IH.
Qed.

Lemma take_chunk_indexed (b : Batch) (st st' : chunker) :
  take_chunk b st = Ok st' -> indexed (trace st') = indexed (trace st).
Proof.
  unfold take_chunk.
  destruct (Slice (Packed b) (chunkStart st) (chunkStart st + chunkSize st));
    cbn [bind]; [|discriminate].
  intros H; injection H as <-. cbn [trace].
  rewrite indexed_app. simpl. apply app_nil_r.
Qed.

Lemma flush_indexed (b : Batch) (st st' : chunker) :
  flush b st = Ok st' -> indexed (trace st') = indexed (trace st).
Proof.
  unfold flush. destruct (0 <? chunkSize st).
  - destruct (take_chunk b st) as [st1|] eqn:Ht; cbn [bind]; [|discriminate].
    intros H; injection H as <-. cbn [trace].
    now apply take_chunk_indexed in Ht.
  - now intros H; injection H as <-.
Qed.

Lemma Reduce_step_indexed (b : Batch) (inc : nat) (st st' : chunker)
    (i : nat) (pres : bool) :
  Reduce_step b inc st i pres = Ok st' ->
  indexed (trace st') = indexed (trace st) ++ [i].
Proof.
  unfold Reduce_step. destruct (index (Present b) i) as [bi|]; cbn [bind];
    [|discriminate].
  destruct pres, bi; cbn [negb]; try discriminate.
  - intros H; injection H as <-. cbn [trace touch]. now rewrite indexed_app.
  - destruct (flush b (touch (IndexPresent i) st)) as [st1|] eqn:Hf;
      cbn [bind]; [|discriminate].
    intros H; injection H as <-. cbn [trace].
    apply flush_indexed in Hf. rewrite Hf. cbn [trace touch].
    now rewrite indexed_app.
  - intros H; injection H as <-. cbn [trace touch]. now rewrite indexed_app.
Qed.

Lemma Expand_step_indexed (b : Batch) (inc : nat) (filler : Vector)
    (st st' : chunker) (i : nat) (pres : bool) :
  Expand_step b inc filler st i pres = Ok st' ->
  indexed (trace st') = indexed (trace st) ++ [i].
Proof.
  unfold Expand_step. destruct (index (Present b) i) as [bi|]; cbn [bind];
    [|discriminate].
  destruct bi, pres; cbn [negb]; try discriminate.
  - intros H; injection H as <-. cbn [trace touch]. now rewrite indexed_app.
  - destruct (flush b (touch (IndexPresent i) st)) as [st1|] eqn:Hf;
      cbn [bind]; [|discriminate].
    intros H; injection H as <-. cbn [trace].
    apply flush_indexed in Hf. rewrite Hf. cbn [trace touch].
    now rewrite indexed_app.
  - intros H; injection H as <-. cbn [trace touch]. now rewrite indexed_app.
Qed.

Lemma Reduce_loop_indexed (b : Batch) (inc : nat) :
  forall (ps : list bool) (i : nat) (st st' : chunker),
    Reduce_loop b inc i ps st = Ok st' ->
    indexed (trace st') = indexed (trace st) ++ seq i (length ps).
Proof.
  induction ps as [|pres ps IH]; intros i st st' H.
  - simpl in *. injection H as <-. now rewrite app_nil_r.
  - cbn [Reduce_loop] in H.
    destruct (Reduce_step b inc st i pres) as [st1|] eqn:Hs; cbn [bind] in H;
      [|discriminate].
    apply IH in H. apply Reduce_step_indexed in Hs.
    rewrite H, Hs, <- app_assoc. reflexivity.
Qed.

Lemma Expand_loop_indexed (b : Batch) (inc : nat) (filler : Vector) :
  forall (ps : list bool) (i : nat) (st st' : chunker),
    Expand_loop b inc filler i ps st = Ok st' ->
    indexed (trace st') = indexed (trace st) ++ seq i (length ps).
Proof.
  induction ps as [|pres ps IH]; intros i st st' H.
  - simpl in *. injection H as <-. now rewrite app_nil_r.
  - cbn [Expand_loop] in H.
    destruct (Expand_step b inc filler st i pres) as [st1|] eqn:Hs;
      cbn [bind] in H; [|discriminate].
    apply IH in H. apply Expand_step_indexed in Hs.
    rewrite H, Hs, <- app_assoc. reflexivity.
Qed.

(** A run that returns has read [b.Present[i]] once for each slot [i] of
    [present], in order. *)
Lemma Reduce_run_indexed (b : Batch) (present : list bool) (st : chunker) :
  Reduce_run b present = Ok st ->
  indexed (trace st) = seq 0 (length present).
Proof.
  unfold Reduce_run. destruct (width_of b) as [inc|]; cbn [bind]; [|discriminate].
  destruct (Reduce_loop b inc 0 present chunker0) as [st1|] eqn:Hl;
    cbn [bind]; [|discriminate].
  apply Reduce_loop_indexed in Hl. cbn [chunker0 trace indexed app] in Hl.
  destruct (0 <? chunkSize st1).
  - intros H. apply take_chunk_indexed in H. congruence.
  - intros H; injection H as <-. exact Hl.
Qed.

Lemma Expand_run_indexed (b : Batch) (present : list bool) (st : chunker) :
  Expand_run b present = Ok st ->
  indexed (trace st) = seq 0 (length present).
Proof.
  unfold Expand_run. destruct (width_of b) as [inc|]; cbn [bind]; [|discriminate].
  destruct (Expand_loop b inc (MakeVector inc) 0 present chunker0) as [st1|] eqn:Hl;
    cbn [bind]; [|discriminate].
  apply Expand_loop_indexed in Hl. cbn [chunker0 trace indexed app] in Hl.
  destruct (0 <? chunkSize st1).
  - intros H. apply take_chunk_indexed in H. congruence.
  - intros H; injection H as <-. exact Hl.
Qed.

(** C9: for every batch [b] with at least one present slot and every mask
    [present] of the length of [b.Present] that respects the precondition of
    the operation, [Batch.Reduce] and [Batch.Expand] run to their end and
    every access they make is in range: each index into [b.Present] is below
    its length, and each [Slice(start, end)] of [b.Packed] has
    [start <= end <= b.Packed.Len()].  The accesses are those of the trace,
    which holds one read of [b.Present] for each slot of [present]. *)
Theorem accesses_in_range (b : Batch) (present : list bool) :
  Batch_inv b ->
  0 < NumPresent b ->
  length present = length (Present b) ->
  (subset present (Present b) ->
   exists st, Reduce_run b present = Ok st /\
     Forall (in_range b) (trace st) /\
     indexed (trace st) = seq 0 (length present)) /\
  (superset present (Present b) ->
   exists st, Expand_run b present = Ok st /\
     Forall (in_range b) (trace st) /\
     indexed (trace st) = seq 0 (length present)).
Proof.
  intros _ Hn _.
  pose proof (width_of_some b Hn) as Hw.
  split; intros Hmask.
  - pose proof (Reduce_run_spec b present _ Hw) as H.
    rewrite (subset_Reduce_panics _ _ Hmask) in H.
    destruct H as (st & Hrun & _ & Htr). exists st.
    repeat split; auto. now apply (Reduce_run_indexed b).
  - pose proof (Expand_run_spec b present _ Hw) as H.
    rewrite (superset_Expand_panics _ _ Hmask) in H.
    destruct H as (st & Hrun & _ & Htr). exists st.
    repeat split; auto. now apply (Expand_run_indexed b).
Qed.

(** ** Where the chunks of Expand land *)

Lemma skipn_past (A : Type) (l1 l2 : list A) (n : nat) :
  skipn (length l1 + n) (l1 ++ l2) = skipn n l2.
Proof.
  rewrite skipn_app, skipn_all2 by lia.
  simpl. f_equal. lia.
Qed.

Lemma nth_error_skipn_cons (A : Type) (l : list A) (i : nat) (x : A) :
  nth_error l i = Some x -> skipn i l = x :: skipn (S i) l.
Proof.
  revert l; induction i as [|i IH]; intros [|y l] H; try discriminate.
  - simpl in H. injection H as ->. reflexivity.
  - simpl in H. apply IH in H. exact H.
Qed.



Lemma rank_split (m : list bool) (i : nat) :
  count_true m = rank m i + count_true (skipn i m).
Proof.
  unfold rank. rewrite <- count_true_app. now rewrite firstn_skipn.
Qed.


(** ** Reduce on sequences *)

Lemma skipn_tl (A : Type) (l : list A) (i : nat) :
  skipn (S i) l = tl (skipn i l).
Proof.
  revert l; induction i as [|i IH]; intros [|x l]; try reflexivity.
  now rewrite skipn_cons, IH.
Qed.

Lemma intersect_spec :
  forall (present xPresent : list bool) (i : nat),
    length present <= length (skipn i xPresent) ->
    intersect present xPresent i = Ok (and_mask present (skipn i xPresent)).
Proof.
  induction present as [|p ps IH]; intros xp i Hlen; [reflexivity|].
  cbn [intersect and_mask].
  destruct (skipn i xp) as [|v tl0] eqn:Hs; [simpl in Hlen; lia|].
  destruct (skipn_cons_index _ _ _ _ _ Hs) as (Hidx & Hnext & _).
  rewrite (IH xp (S i)) by (rewrite Hnext; simpl in Hlen; lia).
  rewrite Hnext. cbn [hd tl]. destruct p; [rewrite Hidx|]; reflexivity.
Qed.

(** When the loop returns, it returns [and_mask]. *)
Lemma intersect_inv :
  forall (present xPresent p : list bool) (i : nat),
    intersect present xPresent i = Ok p ->
    p = and_mask present (skipn i xPresent).
Proof.
  induction present as [|q ps IH]; intros xp p i H.
  - simpl in H. now injection H as <-.
  - cbn [intersect and_mask] in *.
    destruct (intersect ps xp (S i)) as [p'|e] eqn:Hrest.
    + apply IH in Hrest. rewrite skipn_tl in Hrest. subst p'.
      destruct q; cbn [andb bind] in H |- *.
      * unfold index in H.
        assert (Hi : nth_error xp i = nth_error (skipn i xp) 0)
          by (rewrite nth_error_skipn; f_equal; lia).
        rewrite Hi in H.
        destruct (skipn i xp); cbn [nth_error bind hd] in H |- *;
          [discriminate|]. now injection H as <-.
      * now injection H as <-.
    + destruct q; cbn [bind] in H;
        [destruct (index xp i); cbn [bind] in H|]; discriminate.
Qed.

Lemma and_mask_subset :
  forall present xPresent : list bool,
    length present <= length xPresent ->
    Reduce_panics (and_mask present xPresent) xPresent = None.
Proof.
  induction present as [|p ps IH]; intros [|x xs] Hlen; simpl in *;
    try reflexivity; try lia.
  destruct p, x; simpl; apply IH; lia.
Qed.

Lemma and_mask_count (present xPresent : list bool) :
  count_true (and_mask present xPresent) <= count_true xPresent.
Proof.
  revert xPresent; induction present as [|p ps IH]; intros [|x xs]; simpl.
  - lia.
  - lia.
  - rewrite andb_false_r. apply (IH []).
  - specialize (IH xs). destruct p, x; simpl; lia.
Qed.

Lemma emitted_prefix (ins : list Batch) (present : list bool) :
  emitted ins present = firstn (length (emitted ins present)) ins.
Proof.
  induction ins as [|x rest IH]; simpl; [reflexivity|].
  destruct (count_true (and_mask present (Present x)) =? 0); simpl;
    [reflexivity|]. now rewrite <- IH.
Qed.

Lemma NumPresent_mkBatch (v : Vector) (m : list bool) :
  NumPresent (mkBatch v m) = count_true m.
Proof. reflexivity. Qed.

Lemma Reduce_batches_spec (present : list bool) :
  forall ins : list Batch,
    reducible ins present ->
    exists out,
      Reduce_batches ins present = Ok out /\
      Forall2
        (fun x r => Batch_Reduce x (and_mask present (Present x)) = Ok r)
        (emitted ins present) out.
Proof.
  induction ins as [|x rest IH]; intros Hred.
  - exists []. split; [reflexivity|constructor].
  - destruct Hred as (Hn & Hlen & Hrest).
    cbn [Reduce_batches emitted].
    rewrite intersect_spec by exact Hlen. cbn [skipn bind].
    pose proof (Batch_Reduce_spec x (and_mask present (Present x)) _
                  (width_of_some x Hn)) as Hx.
    rewrite (and_mask_subset _ _ Hlen) in Hx.
    rewrite Hx. cbn [bind]. rewrite NumPresent_mkBatch.
    destruct (count_true (and_mask present (Present x)) =? 0) eqn:Hcut.
    + exists []. split; [reflexivity|constructor].
    + apply Nat.eqb_neq in Hcut.
      destruct (IH (Hrest Hcut)) as (out & -> & Hout). cbn [bind].
      eexists; split; [reflexivity|]. constructor; assumption.
Qed.

(** C3, amended: for every sequence [s] and target mask [present] such that
    every timestep of [s.Output()] up to the first whose intersected mask
    [p_t] is empty, that one included, has a batch with at least one present
    slot and a mask no shorter than [present]: the output of
    [Reduce(s, present)] is, for each timestep in order, the batch
    [Batch.Reduce(s.Output()[t], p_t)] with
    [p_t[i] = present[i] AND s.Output()[t].Present[i]], and it ends just
    before the first timestep whose [p_t] has no [true] entry.  For
    per-timestep masks [{A,B}, {A,B}, {B}] and a target mask that selects [A]
    alone, two timesteps are produced. *)
Theorem Reduce_truncates (s : Seq) (present : list bool) :
  reducible (Output s) present ->
  truncated s present /\
  (forall x1 x2 x3 x4 x5 : Numeric,
     let ins := Source [mkBatch [x1; x2] [true; true];
                        mkBatch [x3; x4] [true; true];
                        mkBatch [x5] [false; true]] in
     Reduce ins [true; false] =
       Ok (reduceRes ins [mkBatch [x1] [true; false];
                          mkBatch [x3] [true; false]])).
Proof.
  intros Hred. split; [|reflexivity]. unfold truncated.
  destruct (Reduce_batches_spec present (Output s) Hred) as (out & Hrun & Hout).
  exists out. unfold Reduce. rewrite Hrun. repeat split; auto.
  rewrite <- (Forall2_length Hout). apply emitted_prefix.
Qed.

(** ** reduceRes.Propagate *)

Lemma Forall2_lookup_l (A B : Type) (R : A -> B -> Prop) (l1 : list A) (l2 : list B) :
  Forall2 R l1 l2 ->
  forall t x, nth_error l1 t = Some x ->
    exists y, nth_error l2 t = Some y /\ R x y.
Proof.
  intros H; induction H as [|a c l1 l2 HR _ IH]; intros [|t] x Hx;
    simpl in *; try discriminate.
  - injection Hx as <-. now exists c.
  - now apply IH.
Qed.

Lemma Forall2_lookup_r (A B : Type) (R : A -> B -> Prop) (l1 : list A) (l2 : list B) :
  Forall2 R l1 l2 ->
  forall t y, nth_error l2 t = Some y ->
    exists x, nth_error l1 t = Some x /\ R x y.
Proof.
  intros H; induction H as [|a c l1 l2 HR _ IH]; intros [|t] y Hy;
    simpl in *; try discriminate.
  - injection Hy as <-. now exists a.
  - now apply IH.
Qed.

Lemma Batch_Reduce_Present (b r : Batch) (present : list bool) :
  Batch_Reduce b present = Ok r -> Present r = present.
Proof.
  unfold Batch_Reduce. destruct (Reduce_run b present); cbn [bind];
    [|discriminate]. now intros H; injection H as <-.
Qed.

Lemma Batch_Expand_Present (b r : Batch) (present : list bool) :
  Batch_Expand b present = Ok r -> Present r = present.
Proof.
  unfold Batch_Expand. destruct (Expand_run b present); cbn [bind];
    [|discriminate]. now intros H; injection H as <-.
Qed.

(** What a successful forward pass says of its output: each emitted batch
    carries the intersected mask of its timestep, which is not empty. *)
Lemma Reduce_batches_inv (present : list bool) :
  forall ins out : list Batch,
    Reduce_batches ins present = Ok out ->
    Forall2
      (fun y r => Present r = and_mask present (Present y) /\ 0 < NumPresent r)
      (firstn (length out) ins) out.
Proof.
  induction ins as [|x rest IH]; intros out H.
  - simpl in H. injection H as <-. constructor.
  - cbn [Reduce_batches] in H.
    destruct (intersect present (Present x) 0) as [p|] eqn:Hp;
      cbn [bind] in H; [|discriminate].
    apply intersect_inv in Hp. cbn [skipn] in Hp.
    destruct (Batch_Reduce x p) as [r|] eqn:Hr; cbn [bind] in H; [|discriminate].
    apply Batch_Reduce_Present in Hr.
    destruct (NumPresent r =? 0) eqn:Hcut.
    + injection H as <-. constructor.
    + apply Nat.eqb_neq in Hcut.
      destruct (Reduce_batches rest present) as [out'|] eqn:Hrest;
        cbn [bind] in H; [|discriminate].
      injection H as <-. cbn [length firstn].
      constructor; [|now apply IH]. split; [congruence|lia].
Qed.

Lemma and_mask_superset :
  forall xPresent present : list bool,
    length xPresent <= length present ->
    Expand_panics xPresent (and_mask present xPresent) = None.
Proof.
  induction xPresent as [|x xs IH]; intros [|p ps] Hlen; simpl in *;
    try reflexivity; try lia.
  destruct p, x; simpl; apply IH; lia.
Qed.

(** The first loop of Propagate returns when each of its calls does. *)
Lemma expand_upstream_ok (inOut : list Batch) :
  forall (u : list Batch) (i : nat),
    (forall t x, nth_error u t = Some x ->
       exists y e, nth_error inOut (i + t) = Some y /\
                   Batch_Expand x (Present y) = Ok e) ->
    exists es,
      expand_upstream inOut i u = Ok es /\
      length es = length u /\
      forall t x, nth_error u t = Some x ->
        exists y e, nth_error inOut (i + t) = Some y /\
                    Batch_Expand x (Present y) = Ok e /\
                    nth_error es t = Some e.
Proof.
  induction u as [|x u IH]; intros i Hall.
  - exists []. repeat split. intros [|t] x H; discriminate.
  - destruct (Hall 0 x eq_refl) as (y & e & Hy & He).
    rewrite Nat.add_0_r in Hy.
    destruct (IH (S i)) as (es & Hrun & Hlen & Hes).
    { intros t x' Hx'. destruct (Hall (S t) x' Hx') as (y' & e' & Hy' & He').
      exists y', e'. split; [|exact He'].
      now replace (S i + t) with (i + S t) by lia. }
    exists (e :: es). cbn [expand_upstream]. unfold index. rewrite Hy.
    cbn [bind]. rewrite He. cbn [bind]. rewrite Hrun. cbn [bind].
    split; [reflexivity|]. split; [simpl; now rewrite Hlen|].
    intros [|t] x' Hx'; simpl in Hx'.
    + injection Hx' as <-. exists y, e. rewrite Nat.add_0_r. now repeat split.
    + destruct (Hes t x' Hx') as (y' & e' & Hy' & He' & Hn').
      exists y', e'. replace (i + S t) with (S i + t) by lia. now repeat split.
Qed.

(** C2, amended: for every Reduce node built from a sequence [s] and a
    target mask no shorter than the masks of [s.Output()] at the emitted
    timesteps, when [Propagate] is called with a list [u] of upstream
    batches, one for each emitted timestep and of its shape, the list handed
    to [s.Propagate] has one entry for each timestep of [s.Output()]; entry
    [t] for [t < len(u)] is [Expand(u[t], s.Output()[t].Present)], and every
    later entry [t] has the mask [s.Output()[t].Present] and an all-zero
    packed vector of the length of [s.Output()[t].Packed]. *)
Theorem Propagate_restores_shape
    (s : Seq) (present : list bool) (out u : list Batch) :
  Reduce s present = Ok (reduceRes s out) ->
  Forall2 same_shape u out ->
  (forall t y, t < length u -> nth_error (Output s) t = Some y ->
     length (Present y) <= length present) ->
  shape_restored s u.
Proof.
  intros Hnode Hu Hlen. unfold shape_restored.
  unfold Reduce in Hnode.
  destruct (Reduce_batches (Output s) present) as [out'|] eqn:Hrun;
    cbn [bind] in Hnode; [|discriminate].
  injection Hnode as ->.
  pose proof (Reduce_batches_inv present _ _ Hrun) as Hinv.
  pose proof (Forall2_length Hu) as Hlu.
  pose proof (Forall2_length Hinv) as Hlo. rewrite length_firstn in Hlo.
  destruct (expand_upstream_ok (Output s) u 0) as (es & Hes & Hles & Hent).
  { intros t x Hx. cbn [Nat.add].
    destruct (Forall2_lookup_l _ _ _ _ _ Hu t x Hx) as (r & Hr & Hpx & _).
    destruct (Forall2_lookup_r _ _ _ _ _ Hinv t r Hr) as (y & Hy & Hpr & Hnr).
    assert (Ht : t < length u) by (apply nth_error_Some; congruence).
    assert (Hy' : nth_error (Output s) t = Some y).
    { rewrite nth_error_firstn in Hy.
      destruct (Nat.ltb_spec t (length out)); [exact Hy|discriminate]. }
    assert (Hnx : 0 < NumPresent x) by (unfold NumPresent in *; congruence).
    exists y. eexists. split; [exact Hy'|].
    rewrite (Batch_Expand_spec x (Present y) _ (width_of_some x Hnx)).
    rewrite Hpx, Hpr.
    now rewrite (and_mask_superset _ _ (Hlen t y Ht Hy')). }
  cbn [Nat.add] in Hent.
  exists (es ++ map zero_like (skipn (length u) (Output s))).
  unfold reduceRes_Propagate. rewrite Hes. cbn [bind].
  split; [reflexivity|]. split; [|split].
  - rewrite length_app, length_map, length_skipn. lia.
  - intros t x Hx. destruct (Hent t x Hx) as (y & e & Hy & He & Hn).
    exists y, e. repeat split; auto.
    rewrite nth_error_app1; [exact Hn|].
    apply nth_error_Some. congruence.
  - intros t y Ht Hy.
    rewrite nth_error_app2 by lia.
    rewrite nth_error_map, nth_error_skipn, Hles.
    replace (length u + (t - length u)) with t by lia.
    now rewrite Hy.
Qed.

(** ** Prune *)

Lemma In_slots_from (keeps : list bool) :
  forall j k,
    In k (slots_from j keeps) <->
    j <= k /\ nth_error keeps (k - j) = Some true.
Proof.
  induction keeps as [|keep rest IH]; intros j k; simpl.
  - split; [tauto|]. intros [_ H]. destruct (k - j); discriminate.
  - assert (Hrest : In k (slots_from (S j) rest) <->
                    j < k /\ nth_error (keep :: rest) (k - j) = Some true).
    { rewrite IH. split; intros [Hk Hn]; (split; [lia|]).
      - replace (k - j) with (S (k - S j)) by lia. exact Hn.
      - replace (k - j) with (S (k - S j)) in Hn by lia. exact Hn. }
    destruct keep; simpl; rewrite Hrest; clear Hrest.
    + split.
      * intros [<-|[Hk Hn]]; [|split; [lia|exact Hn]].
        split; [lia|]. now rewrite Nat.sub_diag.
      * intros [Hk Hn]. destruct (Nat.eq_dec j k) as [->|Hne]; [now left|].
        right. split; [lia|exact Hn].
    + split.
      * intros [Hk Hn]. split; [lia|exact Hn].
      * intros [Hk Hn]. split; [|exact Hn].
        destruct (Nat.eq_dec j k) as [->|Hne]; [|lia].
        rewrite Nat.sub_diag in Hn. discriminate.
Qed.

Lemma slots_from_sorted (keeps : list bool) :
  forall j, StronglySorted lt (slots_from j keeps).
Proof.
  induction keeps as [|keep rest IH]; intros j; simpl; [constructor|].
  destruct keep; [|apply IH].
  constructor; [apply IH|].
  apply Forall_forall. intros k Hk. apply In_slots_from in Hk. lia.
Qed.

(** [kept_slots] lists exactly the slots that are [true]. *)
Lemma In_kept_slots (keeps : list bool) (k : nat) :
  In k (kept_slots keeps) <-> nth_error keeps k = Some true.
Proof.
  unfold kept_slots. rewrite In_slots_from, Nat.sub_0_r.
  split; [tauto|]. split; [lia|assumption].
Qed.

Lemma newPres_spec (xPresent : list bool) :
  forall (keeps : list bool) (j : nat),
    Forall (fun k => k < length xPresent) (slots_from j keeps) ->
    exists m,
      newPres keeps xPresent j = Ok m /\
      Forall2 (fun k v => nth_error xPresent k = Some v) (slots_from j keeps) m.
Proof.
  induction keeps as [|keep rest IH]; intros j Hin.
  - exists []. split; [reflexivity|constructor].
  - cbn [newPres slots_from] in *. destruct keep.
    + inversion Hin as [|k ks Hj Hrest]; subst.
      destruct (IH (S j) Hrest) as (m & -> & Hm).
      apply nth_error_Some in Hj.
      destruct (nth_error xPresent j) as [v|] eqn:Hv; [|congruence].
      exists (v :: m). unfold index. rewrite Hv. cbn [bind].
      split; [reflexivity|]. now constructor.
    + now apply IH.
Qed.

Lemma newPres_all (xPresent : list bool) :
  forall (keeps : list bool) (j : nat),
    Forall (fun p => p = true) keeps ->
    length keeps = length (skipn j xPresent) ->
    newPres keeps xPresent j = Ok (skipn j xPresent).
Proof.
  induction keeps as [|keep rest IH]; intros j Hall Hlen.
  - simpl in *. destruct (skipn j xPresent); [reflexivity|discriminate].
  - inversion Hall as [|k ks Hk Hrest]; subst.
    destruct (skipn j xPresent) as [|v tl0] eqn:Hs; [discriminate|].
    destruct (skipn_cons_index _ _ _ _ _ Hs) as (Hidx & Hnext & _).
    cbn [newPres]. rewrite Hidx. cbn [bind].
    rewrite IH; [|exact Hrest|rewrite Hnext; simpl in Hlen; lia].
    now rewrite Hnext.
Qed.

Lemma Prune_batches_spec (first : Batch) :
  forall sOut : list Batch,
    Forall
      (fun x => Forall (fun j => j < length (Present x))
                  (kept_slots (Present first)))
      sOut ->
    exists out,
      Prune_batches first sOut = Ok out /\
      Forall2
        (fun x r =>
           Packed r = Packed x /\
           Forall2 (fun j v => nth_error (Present x) j = Some v)
             (kept_slots (Present first)) (Present r))
        sOut out.
Proof.
  induction sOut as [|x rest IH]; intros Hall.
  - exists []. split; [reflexivity|constructor].
  - inversion Hall as [|x' r' Hx Hrest]; subst.
    destruct (newPres_spec (Present x) (Present first) 0 Hx) as (m & Hm & Hsel).
    destruct (IH Hrest) as (out & Hout & Hrel).
    cbn [Prune_batches]. rewrite Hm, Hout. cbn [bind].
    eexists; split; [reflexivity|]. constructor; [|exact Hrel].
    split; [reflexivity|exact Hsel].
Qed.

Lemma Prune_batches_obj_spec (h : store) (first : BatchObj) :
  forall sOut : list BatchObj,
    Forall
      (fun x => Forall (fun j => j < length (PresentObj x))
                  (kept_slots (PresentObj first)))
      sOut ->
    exists out,
      Prune_batches_obj h first sOut = Ok (h, out) /\
      Forall2
        (fun x r =>
           PackedRef r = PackedRef x /\
           Forall2 (fun j v => nth_error (PresentObj x) j = Some v)
             (kept_slots (PresentObj first)) (PresentObj r))
        sOut out.
Proof.
  induction sOut as [|x rest IH]; intros Hall.
  - exists []. split; [reflexivity|constructor].
  - inversion Hall as [|x' r' Hx Hrest]; subst.
    destruct (newPres_spec (PresentObj x) (PresentObj first) 0 Hx)
      as (m & Hm & Hsel).
    destruct (IH Hrest) as (out & Hout & Hrel).
    cbn [Prune_batches_obj]. rewrite Hm, Hout. cbn [bind fst snd].
    eexists; split; [reflexivity|]. constructor; [|exact Hrel].
    split; [reflexivity|exact Hsel].
Qed.

(** C7, amended: for every sequence [s]: if [s.Output()] has no timestep,
    [Prune(s)] returns [s] itself, unchanged; otherwise, provided each
    timestep's mask has every slot that is present at timestep 0, the
    [t]-th output batch of [Prune(s)] has the same packed vector object as
    [s.Output()[t]] (no vector is copied or modified: the store of vector
    objects is after the call what it was before), and its mask lists the
    values [s.Output()[t].Present[j]], in slot order, over exactly the slots
    [j] with [s.Output()[0].Present[j]] true. *)
Theorem Prune_rewrites_masks (h : store) (s : SeqObj) :
  prunable_obj s ->
  (OutputObj s = [] -> Prune_obj h s = Ok (h, s)) /\
  (forall first rest,
     OutputObj s = first :: rest ->
     masks_rewritten h s first /\
     (forall j, In j (kept_slots (PresentObj first)) <->
                nth_error (PresentObj first) j = Some true) /\
     StronglySorted lt (kept_slots (PresentObj first))).
Proof.
  unfold prunable_obj, masks_rewritten, Prune_obj. intros Hp. split.
  - now intros ->.
  - intros first rest Hout. rewrite Hout in *.
    destruct (Prune_batches_obj_spec h first (first :: rest) Hp)
      as (out & -> & Hrel).
    split; [|split; [apply In_kept_slots|apply slots_from_sorted]].
    exists out. cbn [bind fst snd]. split; auto.
Qed.

(** ** The two models of Prune agree *)

Lemma Output_load_seq (h : store) (s : SeqObj) :
  Output (load_seq h s) = map (load h) (OutputObj s).
Proof.
  destruct s; reflexivity.
Qed.

Lemma Prune_batches_obj_load (h : store) (first : BatchObj) :
  forall sOut : list BatchObj,
    match Prune_batches_obj h first sOut with
    | Ok hr =>
        fst hr = h /\
        Prune_batches (load h first) (map (load h) sOut) =
          Ok (map (load h) (snd hr))
    | Err e => Prune_batches (load h first) (map (load h) sOut) = Err e
    end.
Proof.
  induction sOut as [|x rest IH]; cbn [Prune_batches_obj Prune_batches map].
  - split; reflexivity.
  - cbn [load Present Packed].
    destruct (newPres (PresentObj first) (PresentObj x) 0) as [np|e];
      cbn [bind]; [|reflexivity].
    destruct (Prune_batches_obj h first rest) as [[h' out]|e]; cbn [bind].
    + destruct IH as [-> IH]. cbn [fst snd] in *.
      fold (load h first). rewrite IH. cbn [bind map load].
      split; reflexivity.
    + fold (load h first). now rewrite IH.
Qed.

(** Running [Prune] on references and reading the result in the store is
    running [Prune] on what the references stand for; and [Prune] on
    references never changes the store. *)
Lemma Prune_obj_load (h : store) (s : SeqObj) :
  match Prune_obj h s with
  | Ok hr => fst hr = h /\ Prune (load_seq h s) = Ok (load_seq h (snd hr))
  | Err e => Prune (load_seq h s) = Err e
  end.
Proof.
  unfold Prune_obj, Prune. rewrite Output_load_seq.
  destruct (OutputObj s) as [|first rest] eqn:Hout; cbn [map].
  - split; reflexivity.
  - pose proof (Prune_batches_obj_load h first (first :: rest)) as H.
    cbn [map] in H.
    destruct (Prune_batches_obj h first (first :: rest)) as [[h' out]|e];
      cbn [bind fst snd] in *.
    + destruct H as [-> H]. rewrite H. cbn [bind load_seq].
      split; reflexivity.
    + now rewrite H.
Qed.

(** A vector that was copied is another object, in another store. *)
Lemma alloc_is_new (h : store) (v : Vector) :
  fst (alloc h v) <> h /\
  nth_error h (snd (alloc h v)) = None /\
  nth_error (fst (alloc h v)) (snd (alloc h v)) = Some v.
Proof.
  unfold alloc. cbn [fst snd]. repeat split.
  - intros H. apply (f_equal (@length Vector)) in H.
    rewrite length_app in H. simpl in H. lia.
  - apply nth_error_None. lia.
  - rewrite nth_error_app2, Nat.sub_diag by lia. reflexivity.
Qed.

Lemma Prune_batches_even (first : Batch) :
  Forall (fun p => p = true) (Present first) ->
  forall sOut : list Batch,
    Forall (fun x => length (Present x) = length (Present first)) sOut ->
    exists out,
      Prune_batches first sOut = Ok out /\
      Forall2 (fun x r => Present r = Present x) sOut out.
Proof.
  intros Hall. induction sOut as [|x xs IH]; intros Hl.
  - exists []. split; [reflexivity|constructor].
  - inversion Hl as [|x' r' Hx Hxs]; subst.
    destruct (IH Hxs) as (out & Ho & Hrel).
    cbn [Prune_batches].
    rewrite (newPres_all (Present x) (Present first) 0 Hall)
      by (simpl; congruence).
    cbn [bind skipn]. rewrite Ho. cbn [bind].
    eexists; split; [reflexivity|]. now constructor.
Qed.

(** C8, amended: for every non-empty sequence [s] in which every slot is
    present at the first timestep and every timestep's mask has the length
    of the first, each batch in the output of [Prune(s)] has the mask of
    that timestep in [s.Output()], entry for entry. *)
Theorem Prune_keeps_pruned (s : Seq) (first : Batch) (rest : list Batch) :
  Output s = first :: rest ->
  Forall (fun p => p = true) (Present first) ->
  Forall (fun x => length (Present x) = length (Present first)) (Output s) ->
  masks_unchanged s.
Proof.
  intros Hout Hall Hlen. unfold masks_unchanged, Prune. rewrite Hout in *.
  destruct (Prune_batches_even first Hall _ Hlen) as (out & -> & Hrel).
  now exists out.
Qed.

(** ** The added conditions are needed *)

Lemma newPres_inv (xPresent : list bool) :
  forall (keeps m : list bool) (j : nat),
    newPres keeps xPresent j = Ok m ->
    Forall2 (fun k v => nth_error xPresent k = Some v) (slots_from j keeps) m /\
    length m = count_true keeps.
Proof.
  induction keeps as [|keep rest IH]; intros m j H.
  - simpl in H. injection H as <-. split; [constructor|reflexivity].
  - cbn [newPres slots_from count_true] in *. destruct keep.
    + unfold index in H.
      destruct (nth_error xPresent j) as [v|] eqn:Hv; cbn [bind] in H;
        [|discriminate].
      destruct (newPres rest xPresent (S j)) as [tl0|] eqn:Hr; cbn [bind] in H;
        [|discriminate].
      injection H as <-. destruct (IH _ _ Hr) as (Hsel & Hlen).
      split; [now constructor|simpl; now rewrite Hlen].
    + now apply IH.
Qed.

Lemma Prune_batches_inv (first : Batch) :
  forall sOut out : list Batch,
    Prune_batches first sOut = Ok out ->
    Forall2
      (fun x r =>
         Forall2 (fun k v => nth_error (Present x) k = Some v)
           (kept_slots (Present first)) (Present r) /\
         length (Present r) = count_true (Present first))
      sOut out.
Proof.
  induction sOut as [|x rest IH]; intros out H.
  - simpl in H. injection H as <-. constructor.
  - cbn [Prune_batches] in H.
    destruct (newPres (Present first) (Present x) 0) as [np|] eqn:Hn;
      cbn [bind] in H; [|discriminate].
    destruct (Prune_batches first rest) as [out'|] eqn:Hr; cbn [bind] in H;
      [|discriminate].
    injection H as <-. constructor; [|now apply IH].
    cbn [Present]. now apply newPres_inv.
Qed.

(** [Prune] returns only on sequences whose masks hold the kept slots. *)
Lemma Prune_only_if_prunable (s s' : Seq) :
  Prune s = Ok s' -> prunable s.
Proof.
  unfold Prune, prunable. destruct (Output s) as [|first rest] eqn:Hout;
    [trivial|].
  destruct (Prune_batches first (first :: rest)) as [out|] eqn:Hrun;
    cbn [bind]; [|discriminate].
  intros _. apply Prune_batches_inv in Hrun.
  revert Hrun. generalize (first :: rest) as l. clear Hout.
  intros l Hrun.
  induction Hrun as [|x r xs rs [Hsel _] _ IH]; constructor; [|exact IH].
  clear IH. induction Hsel as [|k v ks vs Hk _ IH]; constructor; [|exact IH].
  apply nth_error_Some. congruence.
Qed.

(** The masks of an output of [Prune] have one length, and the first of them
    has every slot. *)
Lemma Prune_output_even (s : Seq) (first : Batch) (rest out : list Batch) :
  Output s = first :: rest ->
  Prune s = Ok (pruneRes s out) ->
  Forall (fun r => length (Present r) = count_true (Present first)) out /\
  exists r rs, out = r :: rs /\ Forall (fun p => p = true) (Present r).
Proof.
  unfold Prune. intros ->.
  destruct (Prune_batches first (first :: rest)) as [out'|] eqn:Hrun;
    cbn [bind]; [|discriminate].
  intros H; injection H as ->.
  apply Prune_batches_inv in Hrun. split.
  - revert Hrun. generalize (first :: rest) as l. intros l Hrun.
    induction Hrun as [|x r xs rs [_ Hlen] _ IH]; now constructor.
  - inversion Hrun as [|x r xs rs [Hsel _] _]; subst.
    exists r, rs. split; [reflexivity|].
    assert (Hin : forall k, In k (kept_slots (Present first)) ->
                            nth_error (Present first) k = Some true)
      by (intros k; apply In_kept_slots).
    clear -Hsel Hin. induction Hsel as [|k v ks vs Hk _ IH]; constructor.
    + specialize (Hin k (or_introl eq_refl)). congruence.
    + apply IH. intros k' Hk'. apply Hin. now right.
Qed.

(** X19: [Prune] is idempotent on the masks: pruning an output of [Prune]
    returns, and returns every mask as it was. *)
Lemma Prune_twice (s : Seq) (first : Batch) (rest out : list Batch) :
  Output s = first :: rest ->
  Prune s = Ok (pruneRes s out) ->
  masks_unchanged (pruneRes s out).
Proof.
  intros Hout Hrun.
  destruct (Prune_output_even s first rest out Hout Hrun)
    as (Hlen & r & rs & -> & Hall).
  unfold masks_unchanged, Prune. cbn [Output].
  destruct (Prune_batches_even r Hall (r :: rs)) as (out2 & -> & Hrel).
  - inversion Hlen as [|r' rs' Hr Hrs]; subst.
    constructor; [reflexivity|].
    clear -Hr Hrs. induction Hrs; constructor; auto. congruence.
  - now exists out2.
Qed.

Lemma Reduce_panics_length :
  forall present bPresent : list bool,
    Reduce_panics present bPresent = None ->
    length present <= length bPresent.
Proof.
  induction present as [|p ps IH]; intros [|bi bs] H; simpl in *;
    try lia; try discriminate.
  destruct (p && negb bi); [discriminate|]. apply IH in H. lia.
Qed.

Lemma Expand_panics_length :
  forall present bPresent : list bool,
    Expand_panics present bPresent = None ->
    length present <= length bPresent.
Proof.
  induction present as [|p ps IH]; intros [|bi bs] H; simpl in *;
    try lia; try discriminate.
  destruct (bi && negb p); [discriminate|]. apply IH in H. lia.
Qed.

(** [Batch.Reduce] returns only on a batch with a present slot and a mask
    that covers [present]; likewise [Batch.Expand]. *)
Lemma Batch_Reduce_only_if (b r : Batch) (present : list bool) :
  Batch_Reduce b present = Ok r ->
  0 < NumPresent b /\ length present <= length (Present b).
Proof.
  intros H. destruct (NumPresent b) as [|n] eqn:Hn.
  - unfold Batch_Reduce, Reduce_run in H.
    rewrite (width_of_empty b Hn) in H. discriminate.
  - assert (Hpos : 0 < NumPresent b) by lia.
    rewrite (Batch_Reduce_spec b present _ (width_of_some b Hpos)) in H.
    split; [lia|]. apply Reduce_panics_length.
    destruct (Reduce_panics present (Present b)); [discriminate|reflexivity].
Qed.

Lemma Batch_Expand_only_if (b r : Batch) (present : list bool) :
  Batch_Expand b present = Ok r ->
  0 < NumPresent b /\ length present <= length (Present b).
Proof.
  intros H. destruct (NumPresent b) as [|n] eqn:Hn.
  - unfold Batch_Expand, Expand_run in H.
    rewrite (width_of_empty b Hn) in H. discriminate.
  - assert (Hpos : 0 < NumPresent b) by lia.
    rewrite (Batch_Expand_spec b present _ (width_of_some b Hpos)) in H.
    split; [lia|]. apply Expand_panics_length.
    destruct (Expand_panics present (Present b)); [discriminate|reflexivity].
Qed.

Lemma and_mask_length (present xPresent : list bool) :
  length (and_mask present xPresent) = length present.
Proof.
  revert xPresent; induction present as [|p ps IH]; intros xp; simpl;
    [reflexivity|]. now rewrite IH.
Qed.

(** The forward pass returns only on sequences that are [reducible]. *)
Lemma Reduce_only_if_reducible (present : list bool) :
  forall ins out : list Batch,
    Reduce_batches ins present = Ok out -> reducible ins present.
Proof.
  induction ins as [|x rest IH]; intros out H; [exact I|].
  cbn [Reduce_batches reducible] in *.
  destruct (intersect present (Present x) 0) as [p|] eqn:Hp;
    cbn [bind] in H; [|discriminate].
  apply intersect_inv in Hp. cbn [skipn] in Hp. subst p.
  destruct (Batch_Reduce x (and_mask present (Present x))) as [r|] eqn:Hr;
    cbn [bind] in H; [|discriminate].
  destruct (Batch_Reduce_only_if _ _ _ Hr) as [Hn Hlen].
  rewrite and_mask_length in Hlen.
  apply Batch_Reduce_Present in Hr.
  split; [exact Hn|]. split; [exact Hlen|]. intros Hcut.
  unfold NumPresent in H. rewrite Hr in H.
  destruct (Nat.eqb_spec (count_true (and_mask present (Present x))) 0);
    [contradiction|].
  destruct (Reduce_batches rest present) as [out'|] eqn:Hrest;
    cbn [bind] in H; [|discriminate].
  now apply (IH out').
Qed.

(** Propagate returns only when the target mask is no shorter than the
    input masks of the timesteps it expands. *)
Lemma Propagate_only_if (s : Seq) (present : list bool) (u newU : list Batch) :
  Forall (fun x => length (Present x) = length present) u ->
  reduceRes_Propagate s u = Ok newU ->
  forall t y, t < length u -> nth_error (Output s) t = Some y ->
    length (Present y) <= length present.
Proof.
  unfold reduceRes_Propagate. intros Hu.
  destruct (expand_upstream (Output s) 0 u) as [es|] eqn:Hes; cbn [bind];
    [|discriminate].
  intros _.
  assert (H : forall i es, expand_upstream (Output s) i u = Ok es ->
            forall t y, t < length u -> nth_error (Output s) (i + t) = Some y ->
              length (Present y) <= length present).
  { clear es Hes.
    induction Hu as [|x xs Hx _ IH]; intros i es Hes t y Ht Hy;
      [simpl in Ht; lia|].
    cbn [expand_upstream] in Hes. unfold index in Hes.
    destruct (nth_error (Output s) i) as [y0|] eqn:Hy0; cbn [bind] in Hes;
      [|discriminate].
    destruct (Batch_Expand x (Present y0)) as [e|] eqn:He; cbn [bind] in Hes;
      [|discriminate].
    destruct (expand_upstream (Output s) (S i) xs) as [es'|] eqn:Hes';
      cbn [bind] in Hes; [|discriminate].
    destruct t as [|t].
    - rewrite Nat.add_0_r in Hy. assert (y = y0) by congruence. subst y0.
      destruct (Batch_Expand_only_if _ _ _ He) as [_ Hl]. lia.
    - apply (IH (S i) es' Hes' t y); [simpl in Ht; lia|].
      now replace (S i + t) with (i + S t) by lia. }
  intros t y Ht Hy. exact (H 0 es Hes t y Ht Hy).
Qed.

(** * Further properties of the file *)

(** ** Every way Batch.Reduce and Batch.Expand can end *)

Lemma not_exceeds_nil_r (m : list bool) : ~ exceeds m [].
Proof.
  intros [[|i] [_ H]]; discriminate.
Qed.

Lemma not_exceeds_nil_l (m : list bool) : ~ exceeds [] m.
Proof.
  intros [[|i] [H _]]; discriminate.
Qed.

(** Closes the cases of an outcome table: the hypotheses are taken apart
    and each case ends by a clash of constructors, by arithmetic or by a
    hypothesis. *)
Ltac ends_apart :=
  repeat match goal with
         | H : _ /\ _ |- _ => destruct H
         | H : exists _, _ |- _ => destruct H
         end;
  try discriminate; try lia; try contradiction; try assumption;
  try (eexists; reflexivity);
  try match goal with
      | H : Err (Message _) = Err (Message _) |- _ =>
          injection H as <-; reflexivity
      end.

Lemma Reduce_panics_class :
  forall present bPresent : list bool,
    match Reduce_panics present bPresent with
    | None => length present <= length bPresent /\ ~ exceeds present bPresent
    | Some IndexOutOfRange =>
        length bPresent < length present /\ ~ exceeds present bPresent
    | Some (Message m) =>
        m = "cannot re-add sequences" /\ exceeds present bPresent
    | Some _ => False
    end.
Proof.
  induction present as [|p ps IH]; intros [|bi bs]; cbn [Reduce_panics length].
  - split; [lia|apply not_exceeds_nil_l].
  - split; [lia|apply not_exceeds_nil_l].
  - split; [lia|apply not_exceeds_nil_r].
  - specialize (IH bs).
    destruct p, bi; cbn [andb negb].
    2: { split; [reflexivity|]. apply exceeds_cons. now left. }
    all: destruct (Reduce_panics ps bs) as [[| | |m]|]; try exact IH.
    all: destruct IH as [H1 H2]; rewrite exceeds_cons;
      (split; [lia || exact H1|]).
    all: try (intros [[? ?]|?]; [discriminate|contradiction]).
    all: now right.
Qed.

Lemma Expand_panics_class :
  forall present bPresent : list bool,
    match Expand_panics present bPresent with
    | None => length present <= length bPresent /\ ~ exceeds bPresent present
    | Some IndexOutOfRange =>
        length bPresent < length present /\ ~ exceeds bPresent present
    | Some (Message m) =>
        m = "argument to Expand must be a superset" /\ exceeds bPresent present
    | Some _ => False
    end.
Proof.
  induction present as [|p ps IH]; intros [|bi bs]; cbn [Expand_panics length].
  - split; [lia|apply not_exceeds_nil_l].
  - split; [lia|apply not_exceeds_nil_r].
  - split; [lia|apply not_exceeds_nil_l].
  - specialize (IH bs).
    destruct p, bi; cbn [andb negb].
    3: { split; [reflexivity|]. apply exceeds_cons. now left. }
    all: destruct (Expand_panics ps bs) as [[| | |m]|]; try exact IH.
    all: destruct IH as [H1 H2]; rewrite exceeds_cons;
      (split; [lia || exact H1|]).
    all: try (intros [[? ?]|?]; [discriminate|contradiction]).
    all: now right.
Qed.

(** X1: [Batch.Reduce] ends in exactly one of four ways, decided by the two
    masks alone: a division by zero when the batch has no present slot; the
    panic "cannot re-add sequences" when some slot is [true] in [present]
    and [false] in [b.Present]; an index out of range when [present] is
    longer than [b.Present] and no such slot comes first; a returned batch
    otherwise.  A mask shorter than [b.Present] is accepted.  No [Slice] of
    [b.Packed] is ever out of range, whatever the length of [b.Packed]. *)
Theorem Batch_Reduce_outcomes (b : Batch) (present : list bool) :
  (Batch_Reduce b present = Err DivideByZero <-> NumPresent b = 0) /\
  (Batch_Reduce b present = Err (Message "cannot re-add sequences") <->
   0 < NumPresent b /\ exceeds present (Present b)) /\
  (Batch_Reduce b present = Err IndexOutOfRange <->
   0 < NumPresent b /\ length (Present b) < length present /\
   ~ exceeds present (Present b)) /\
  ((exists r, Batch_Reduce b present = Ok r) <->
   0 < NumPresent b /\ length present <= length (Present b) /\
   ~ exceeds present (Present b)) /\
  Batch_Reduce b present <> Err SliceOutOfRange /\
  (forall m, Batch_Reduce b present = Err (Message m) ->
     m = "cannot re-add sequences").
Proof.
  destruct (NumPresent b) as [|n] eqn:Hn.
  - assert (H : Batch_Reduce b present = Err DivideByZero).
    { unfold Batch_Reduce, Reduce_run. now rewrite (width_of_empty b Hn). }
    rewrite H. repeat split; intros; ends_apart.
  - assert (Hpos : 0 < NumPresent b) by lia.
    rewrite (Batch_Reduce_spec b present _ (width_of_some b Hpos)).
    pose proof (Reduce_panics_class present (Present b)) as Hc.
    destruct (Reduce_panics present (Present b)) as [[| | |m]|];
      try contradiction; destruct Hc as [H1 H2]; subst.
    all: repeat split; intros; ends_apart.
Qed.

(** X2: [Batch.Expand] ends in exactly one of four ways: a division by zero
    when the batch has no present slot; the panic "argument to Expand must
    be a superset" when some slot of [present] is [false] where [b.Present]
    is [true]; an index out of range when [present] is longer than
    [b.Present] and no such slot comes first; a returned batch otherwise.
    A mask shorter than [b.Present] is accepted, whatever the slots beyond
    it hold.  No [Slice] of [b.Packed] is ever out of range. *)
Theorem Batch_Expand_outcomes (b : Batch) (present : list bool) :
  (Batch_Expand b present = Err DivideByZero <-> NumPresent b = 0) /\
  (Batch_Expand b present =
     Err (Message "argument to Expand must be a superset") <->
   0 < NumPresent b /\ exceeds (Present b) present) /\
  (Batch_Expand b present = Err IndexOutOfRange <->
   0 < NumPresent b /\ length (Present b) < length present /\
   ~ exceeds (Present b) present) /\
  ((exists r, Batch_Expand b present = Ok r) <->
   0 < NumPresent b /\ length present <= length (Present b) /\
   ~ exceeds (Present b) present) /\
  Batch_Expand b present <> Err SliceOutOfRange /\
  (forall m, Batch_Expand b present = Err (Message m) ->
     m = "argument to Expand must be a superset").
Proof.
  destruct (NumPresent b) as [|n] eqn:Hn.
  - assert (H : Batch_Expand b present = Err DivideByZero).
    { unfold Batch_Expand, Expand_run. now rewrite (width_of_empty b Hn). }
    rewrite H. repeat split; intros; ends_apart.
  - assert (Hpos : 0 < NumPresent b) by lia.
    rewrite (Batch_Expand_spec b present _ (width_of_some b Hpos)).
    pose proof (Expand_panics_class present (Present b)) as Hc.
    destruct (Expand_panics present (Present b)) as [[| | |m]|];
      try contradiction; destruct Hc as [H1 H2]; subst.
    all: repeat split; intros; ends_apart.
Qed.

(** ** Where the chunks of Reduce come from *)

Lemma firstn_app_exact (A : Type) (n : nat) (l1 l2 : list A) :
  length l1 = n -> firstn n (l1 ++ l2) = l1.
Proof.
  intros <-. rewrite firstn_app, Nat.sub_diag, firstn_O, app_nil_r.
  apply firstn_all.
Qed.

Lemma skipn_app_exact (A : Type) (n : nat) (l1 l2 : list A) :
  length l1 = n -> skipn n (l1 ++ l2) = l2.
Proof.
  intros <-. rewrite skipn_app, Nat.sub_diag, skipn_all. reflexivity.
Qed.

Lemma subset_trans (m1 m2 m3 : list bool) :
  subset m1 m2 -> subset m2 m3 -> subset m1 m3.
Proof.
  intros H; revert m3.
  induction H as [|a c l1 l2 Hac _ IH]; intros m3 H23;
    inversion H23 as [|c' d l2' l3 Hcd Hrest]; subst; constructor.
  - intros Ha. apply Hcd, Hac, Ha.
  - apply IH. exact Hrest.
Qed.

Lemma kept_skipn (inc : nat) :
  forall (i : nat) (present bPresent : list bool) (v : Vector),
    subset present bPresent ->
    inc * count_true bPresent <= Len v ->
    skipn (inc * rank present i) (kept inc bPresent present v) =
      kept inc (skipn i bPresent) (skipn i present)
        (skipn (inc * rank bPresent i) v).
Proof.
  unfold Len, rank.
  induction i as [|i IH]; intros present bPresent v Hsub Hfit.
  - simpl. now rewrite Nat.mul_0_r.
  - destruct Hsub as [|p bi ps bs Hp Hsub].
    + simpl. now rewrite skipn_nil.
    + destruct bi; simpl in Hfit; rewrite ?Nat.mul_succ_r in Hfit.
      * assert (Hrest : inc * count_true bs <= length (skipn inc v))
          by (rewrite length_skipn; lia).
        assert (Hl : length (firstn inc v) = inc)
          by (apply length_firstn_fits; lia).
        destruct p; cbn [firstn skipn count_true kept].
        -- rewrite !Nat.mul_succ_r, !(Nat.add_comm _ inc).
           rewrite <- Hl at 1. rewrite skipn_past.
           rewrite (IH ps bs (skipn inc v) Hsub Hrest).
           now rewrite skipn_skipn, (Nat.add_comm inc).
        -- rewrite (IH ps bs (skipn inc v) Hsub Hrest).
           now rewrite Nat.mul_succ_r, skipn_skipn.
      * destruct p; [specialize (Hp eq_refl); discriminate|].
        cbn [firstn skipn count_true kept]. now apply IH.
Qed.

(** X3: for a batch with a present slot and a mask that is a subset of
    [b.Present], [Batch.Reduce] returns a batch with the mask [present]
    whose packed vector has one chunk of width [inc] for each slot of
    [present], in slot order, and the chunk of slot [i] is the chunk that
    slot [i] has in [b.Packed]. *)
Theorem Reduce_copies_kept_chunks (b : Batch) (present : list bool) :
  0 < NumPresent b ->
  subset present (Present b) ->
  exists r,
    Batch_Reduce b present = Ok r /\
    Present r = present /\
    let inc := Len (Packed b) / NumPresent b in
    Len (Packed r) = inc * count_true present /\
    forall i,
      nth_error present i = Some true ->
      chunk inc (rank present i) (Packed r) =
        chunk inc (rank (Present b) i) (Packed b) /\
      Len (chunk inc (rank present i) (Packed r)) = inc.
Proof.
  intros Hn Hsub.
  pose proof (width_of_some b Hn) as Hw.
  cbv zeta. set (inc := Len (Packed b) / NumPresent b) in *. clearbody inc.
  pose proof (width_fits b inc Hw) as Hfit. unfold NumPresent in Hfit.
  rewrite (Batch_Reduce_spec b present inc Hw).
  rewrite (subset_Reduce_panics _ _ Hsub).
  eexists; split; [reflexivity|]. cbn [Packed Present].
  split; [reflexivity|]. split; [now apply kept_length|].
  intros i Hp. unfold chunk.
  rewrite (kept_skipn inc i present (Present b) (Packed b) Hsub Hfit).
  assert (Hb : nth_error (Present b) i = Some true).
  { destruct (Forall2_lookup_l _ _ _ _ _ Hsub i true Hp) as (bi & Hbi & Himp).
    now rewrite (Himp eq_refl) in Hbi. }
  rewrite (nth_error_skipn_cons _ _ _ _ Hp), (nth_error_skipn_cons _ _ _ _ Hb).
  cbn [kept].
  pose proof (rank_split (Present b) i) as Hsplit.
  rewrite (nth_error_skipn_cons _ _ _ _ Hb) in Hsplit. cbn [count_true] in Hsplit.
  assert (Hl : length (firstn inc (skipn (inc * rank (Present b) i) (Packed b)))
               = inc).
  { apply length_firstn_fits. unfold Len in Hfit. rewrite length_skipn.
    rewrite Hsplit, Nat.mul_add_distr_l, Nat.mul_succ_r in Hfit. lia. }
  rewrite (firstn_app_exact _ _ _ _ Hl). split; [reflexivity|exact Hl].
Qed.

(** ** Composing Reduce and Expand *)

Lemma kept_kept (inc : nat) :
  forall (q p : list bool),
    subset q p ->
    forall (bPresent : list bool) (v : Vector),
      subset p bPresent ->
      inc * count_true bPresent <= Len v ->
      kept inc p q (kept inc bPresent p v) = kept inc bPresent q v.
Proof.
  unfold Len.
  intros q p Hqp; induction Hqp as [|qi pi qs ps Hq _ IH];
    intros bPresent v Hpb Hfit.
  - inversion Hpb; reflexivity.
  - inversion Hpb as [|pi' bi ps' bs Hp Hrest]; subst.
    destruct bi; simpl in Hfit; rewrite ?Nat.mul_succ_r in Hfit.
    + assert (Hv : inc * count_true bs <= length (skipn inc v))
        by (rewrite length_skipn; lia).
      assert (Hl : length (firstn inc v) = inc)
        by (apply length_firstn_fits; lia).
      destruct pi.
      * destruct qi; cbn [kept];
          rewrite ?(firstn_app_exact _ _ _ _ Hl), (skipn_app_exact _ _ _ _ Hl);
          now rewrite (IH bs (skipn inc v) Hrest Hv).
      * destruct qi; [specialize (Hq eq_refl); discriminate|].
        cbn [kept]. now apply IH.
    + destruct pi; [specialize (Hp eq_refl); discriminate|].
      destruct qi; [specialize (Hq eq_refl); discriminate|].
      cbn [kept]. now apply IH.
Qed.

Lemma spread_spread (inc : nat) :
  forall (bPresent p : list bool),
    subset bPresent p ->
    forall (q : list bool) (v : Vector),
      subset p q ->
      inc * count_true bPresent <= Len v ->
      spread inc p q (spread inc bPresent p v) = spread inc bPresent q v.
Proof.
  unfold Len.
  intros bPresent p Hbp; induction Hbp as [|bi pi bs ps Hb _ IH];
    intros q v Hpq Hfit.
  - inversion Hpq; reflexivity.
  - inversion Hpq as [|pi' qi ps' qs Hp Hrest]; subst.
    assert (Hz : length (repeat zero inc) = inc) by apply repeat_length.
    destruct bi; simpl in Hfit; rewrite ?Nat.mul_succ_r in Hfit.
    + assert (Hv : inc * count_true bs <= length (skipn inc v))
        by (rewrite length_skipn; lia).
      assert (Hl : length (firstn inc v) = inc)
        by (apply length_firstn_fits; lia).
      rewrite (Hb eq_refl) in *. rewrite (Hp eq_refl). cbn [spread].
      rewrite (firstn_app_exact _ _ _ _ Hl), (skipn_app_exact _ _ _ _ Hl).
      now rewrite (IH qs (skipn inc v) Hrest Hv).
    + destruct pi.
      * rewrite (Hp eq_refl). cbn [spread].
        rewrite (firstn_app_exact _ _ _ _ Hz), (skipn_app_exact _ _ _ _ Hz).
        now rewrite (IH qs v Hrest Hfit).
      * destruct qi; cbn [spread]; now rewrite (IH qs v Hrest Hfit).
Qed.

Lemma kept_after_spread (inc : nat) :
  forall (q bPresent : list bool),
    subset q bPresent ->
    forall (p : list bool) (v : Vector),
      subset bPresent p ->
      inc * count_true bPresent <= Len v ->
      kept inc p q (spread inc bPresent p v) = kept inc bPresent q v.
Proof.
  unfold Len.
  intros q bPresent Hqb; induction Hqb as [|qi bi qs bs Hq _ IH];
    intros p v Hbp Hfit.
  - inversion Hbp; reflexivity.
  - inversion Hbp as [|bi' pi bs' ps Hb Hrest]; subst.
    assert (Hz : length (repeat zero inc) = inc) by apply repeat_length.
    destruct bi; simpl in Hfit; rewrite ?Nat.mul_succ_r in Hfit.
    + assert (Hv : inc * count_true bs <= length (skipn inc v))
        by (rewrite length_skipn; lia).
      assert (Hl : length (firstn inc v) = inc)
        by (apply length_firstn_fits; lia).
      rewrite (Hb eq_refl). destruct qi; cbn [kept spread];
        rewrite ?(firstn_app_exact _ _ _ _ Hl), (skipn_app_exact _ _ _ _ Hl);
        now rewrite (IH ps (skipn inc v) Hrest Hv).
    + destruct qi; [specialize (Hq eq_refl); discriminate|].
      destruct pi; cbn [kept spread];
        rewrite ?(skipn_app_exact _ _ _ _ Hz);
        now rewrite (IH ps v Hrest Hfit).
Qed.

Lemma spread_after_kept (inc : nat) :
  forall (p bPresent : list bool),
    subset p bPresent ->
    forall v : Vector,
      inc * count_true bPresent <= Len v ->
      spread inc p bPresent (kept inc bPresent p v) = blanked inc bPresent p v.
Proof.
  unfold Len.
  intros p bPresent Hpb; induction Hpb as [|pi bi ps bs Hp _ IH];
    intros v Hfit.
  - reflexivity.
  - destruct bi; simpl in Hfit; rewrite ?Nat.mul_succ_r in Hfit.
    + assert (Hv : inc * count_true bs <= length (skipn inc v))
        by (rewrite length_skipn; lia).
      assert (Hl : length (firstn inc v) = inc)
        by (apply length_firstn_fits; lia).
      destruct pi; cbn [kept spread blanked].
      * rewrite (firstn_app_exact _ _ _ _ Hl), (skipn_app_exact _ _ _ _ Hl).
        now rewrite (IH (skipn inc v) Hv).
      * now rewrite (IH (skipn inc v) Hv).
    + destruct pi; [specialize (Hp eq_refl); discriminate|].
      cbn [kept spread blanked]. now apply IH.
Qed.

Lemma kept_same (inc : nat) :
  forall (m : list bool) (v : Vector),
    inc * count_true m <= Len v ->
    kept inc m m v = firstn (inc * count_true m) v.
Proof.
  unfold Len.
  induction m as [|[] m IH]; intros v Hfit; cbn [kept count_true] in *.
  - now rewrite Nat.mul_0_r.
  - rewrite Nat.mul_succ_r in *.
    rewrite (Nat.add_comm _ inc), firstn_plus, IH; [reflexivity|].
    rewrite length_skipn. lia.
  - now apply IH.
Qed.

Lemma spread_same (inc : nat) :
  forall (m : list bool) (v : Vector),
    inc * count_true m <= Len v ->
    spread inc m m v = firstn (inc * count_true m) v.
Proof.
  unfold Len.
  induction m as [|[] m IH]; intros v Hfit; cbn [spread count_true] in *.
  - now rewrite Nat.mul_0_r.
  - rewrite Nat.mul_succ_r in *.
    rewrite (Nat.add_comm _ inc), firstn_plus, IH; [reflexivity|].
    rewrite length_skipn. lia.
  - now apply IH.
Qed.

Lemma blanked_skipn (inc : nat) :
  forall (i : nat) (present bPresent : list bool) (v : Vector),
    length present = length bPresent ->
    inc * count_true bPresent <= Len v ->
    skipn (inc * rank bPresent i) (blanked inc bPresent present v) =
      blanked inc (skipn i bPresent) (skipn i present)
        (skipn (inc * rank bPresent i) v).
Proof.
  unfold Len, rank.
  induction i as [|i IH]; intros present bPresent v Hlen Hfit.
  - simpl. now rewrite Nat.mul_0_r.
  - destruct present as [|p ps], bPresent as [|bi bs]; try discriminate.
    + simpl. now rewrite skipn_nil.
    + injection Hlen as Hlen.
      destruct bi; simpl in Hfit; rewrite ?Nat.mul_succ_r in Hfit.
      * assert (Hrest : inc * count_true bs <= length (skipn inc v))
          by (rewrite length_skipn; lia).
        assert (Hl : length (if p then firstn inc v else repeat zero inc) = inc).
        { destruct p; [apply length_firstn_fits; lia|apply repeat_length]. }
        cbn [firstn skipn count_true blanked].
        rewrite Nat.mul_succ_r, (Nat.add_comm _ inc).
        rewrite <- Hl at 1. rewrite skipn_past.
        rewrite (IH ps bs (skipn inc v) Hlen Hrest).
        now rewrite skipn_skipn, (Nat.add_comm inc).
      * cbn [firstn skipn count_true blanked]. now apply IH.
Qed.

(** The batch a successful [Batch.Reduce] returns, with its width. *)
Lemma Batch_Reduce_subset (b : Batch) (present : list bool) (inc : nat) :
  width_of b = Ok inc ->
  subset present (Present b) ->
  Batch_Reduce b present =
    Ok (mkBatch (kept inc (Present b) present (Packed b)) present) /\
  (0 < count_true present ->
   width_of (mkBatch (kept inc (Present b) present (Packed b)) present) = Ok inc).
Proof.
  intros Hw Hsub. rewrite (Batch_Reduce_spec b present inc Hw).
  rewrite (subset_Reduce_panics _ _ Hsub). split; [reflexivity|].
  intros Hp. apply width_of_inv; [exact Hp|]. cbn [Packed].
  rewrite NumPresent_mkBatch. apply kept_length; [exact Hsub|].
  exact (width_fits b inc Hw).
Qed.

Lemma Batch_Expand_superset (b : Batch) (present : list bool) (inc : nat) :
  width_of b = Ok inc ->
  superset present (Present b) ->
  Batch_Expand b present =
    Ok (mkBatch (spread inc (Present b) present (Packed b)) present) /\
  width_of (mkBatch (spread inc (Present b) present (Packed b)) present) = Ok inc.
Proof.
  intros Hw Hsup. rewrite (Batch_Expand_spec b present inc Hw).
  rewrite (superset_Expand_panics _ _ Hsup). split; [reflexivity|].
  assert (Hn : 0 < NumPresent b).
  { unfold width_of in Hw. destruct (NumPresent b); [discriminate|lia]. }
  apply width_of_inv; rewrite NumPresent_mkBatch.
  - pose proof (subset_count _ _ Hsup). unfold NumPresent in Hn. lia.
  - cbn [Packed]. apply spread_length; [exact Hsup|].
    exact (width_fits b inc Hw).
Qed.

Lemma subset_present_slot (p bPresent : list bool) (b : Batch) :
  Present b = bPresent -> subset p bPresent -> 0 < count_true p ->
  0 < NumPresent b.
Proof.
  intros <- Hsub Hp. pose proof (subset_count _ _ Hsub).
  unfold NumPresent. lia.
Qed.

(** X4: reducing in two steps is reducing in one.  For masks
    [q] within [p] within [b.Present], with a present slot in [p],
    [Reduce(Reduce(b, p), q)] returns the batch that [Reduce(b, q)]
    returns. *)
Theorem Reduce_Reduce (b : Batch) (p q : list bool) :
  0 < count_true p ->
  subset q p ->
  subset p (Present b) ->
  exists r1 r,
    Batch_Reduce b p = Ok r1 /\
    Batch_Reduce r1 q = Ok r /\
    Batch_Reduce b q = Ok r.
Proof.
  intros Hp Hqp Hpb.
  pose proof (subset_present_slot p (Present b) b eq_refl Hpb Hp) as Hn.
  pose proof (width_of_some b Hn) as Hw.
  set (inc := Len (Packed b) / NumPresent b) in *. clearbody inc.
  destruct (Batch_Reduce_subset b p inc Hw Hpb) as [H1 Hw1].
  specialize (Hw1 Hp).
  destruct (Batch_Reduce_subset _ q inc Hw1 Hqp) as [H2 _].
  destruct (Batch_Reduce_subset b q inc Hw (subset_trans _ _ _ Hqp Hpb))
    as [H3 _].
  cbn [Packed Present] in H2.
  rewrite (kept_kept inc q p Hqp (Present b) (Packed b) Hpb
             (width_fits b inc Hw)) in H2.
  eexists; eexists. split; [exact H1|]. split; [exact H2|exact H3].
Qed.

(** X5: expanding in two steps is expanding in one.  For masks
    [b.Present] within [p] within [q], [Expand(Expand(b, p), q)] returns
    the batch that [Expand(b, q)] returns. *)
Theorem Expand_Expand (b : Batch) (p q : list bool) :
  0 < NumPresent b ->
  superset p (Present b) ->
  superset q p ->
  exists r1 r,
    Batch_Expand b p = Ok r1 /\
    Batch_Expand r1 q = Ok r /\
    Batch_Expand b q = Ok r.
Proof.
  unfold superset. intros Hn Hbp Hpq.
  pose proof (width_of_some b Hn) as Hw.
  set (inc := Len (Packed b) / NumPresent b) in *. clearbody inc.
  destruct (Batch_Expand_superset b p inc Hw Hbp) as [H1 Hw1].
  destruct (Batch_Expand_superset _ q inc Hw1 Hpq) as [H2 _].
  destruct (Batch_Expand_superset b q inc Hw (subset_trans _ _ _ Hbp Hpq))
    as [H3 _].
  cbn [Packed Present] in H2.
  rewrite (spread_spread inc (Present b) p Hbp q (Packed b) Hpq
             (width_fits b inc Hw)) in H2.
  eexists; eexists. split; [exact H1|]. split; [exact H2|exact H3].
Qed.

(** X6: the slots that [Expand] adds do not show after a [Reduce] to slots
    of the batch.  For [p] a superset of [b.Present] and [q] a subset of it,
    [Reduce(Expand(b, p), q)] returns the batch that [Reduce(b, q)]
    returns. *)
Theorem Reduce_after_Expand (b : Batch) (p q : list bool) :
  0 < NumPresent b ->
  superset p (Present b) ->
  subset q (Present b) ->
  exists e r,
    Batch_Expand b p = Ok e /\
    Batch_Reduce e q = Ok r /\
    Batch_Reduce b q = Ok r.
Proof.
  unfold superset. intros Hn Hbp Hqb.
  pose proof (width_of_some b Hn) as Hw.
  set (inc := Len (Packed b) / NumPresent b) in *. clearbody inc.
  destruct (Batch_Expand_superset b p inc Hw Hbp) as [H1 Hw1].
  destruct (Batch_Reduce_subset _ q inc Hw1 (subset_trans _ _ _ Hqb Hbp))
    as [H2 _].
  destruct (Batch_Reduce_subset b q inc Hw Hqb) as [H3 _].
  cbn [Packed Present] in H2.
  rewrite (kept_after_spread inc q (Present b) Hqb p (Packed b) Hbp
             (width_fits b inc Hw)) in H2.
  eexists; eexists. split; [exact H1|]. split; [exact H2|exact H3].
Qed.

(** X7: [Expand] after [Reduce] blanks the dropped slots.  For a mask [p]
    within [b.Present] with a present slot, [Expand(Reduce(b, p), b.Present)]
    returns a batch with the mask and the packed length of [b] (for the
    width [inc] of [b]) in which the chunk of each slot of [b] is the chunk
    of [b.Packed] where [p] has the slot, and zeros where [p] has not. *)
Theorem Expand_after_Reduce (b : Batch) (p : list bool) :
  0 < count_true p ->
  subset p (Present b) ->
  exists r1 r2,
    Batch_Reduce b p = Ok r1 /\
    Batch_Expand r1 (Present b) = Ok r2 /\
    Present r2 = Present b /\
    let inc := Len (Packed b) / NumPresent b in
    Len (Packed r2) = inc * NumPresent b /\
    forall i,
      nth_error (Present b) i = Some true ->
      chunk inc (rank (Present b) i) (Packed r2) =
        if nth i p false
        then chunk inc (rank (Present b) i) (Packed b)
        else repeat zero inc.
Proof.
  intros Hp Hpb.
  pose proof (subset_present_slot p (Present b) b eq_refl Hpb Hp) as Hn.
  pose proof (width_of_some b Hn) as Hw.
  cbv zeta. set (inc := Len (Packed b) / NumPresent b) in *. clearbody inc.
  pose proof (width_fits b inc Hw) as Hfit. unfold NumPresent in Hfit.
  destruct (Batch_Reduce_subset b p inc Hw Hpb) as [H1 Hw1].
  specialize (Hw1 Hp).
  destruct (Batch_Expand_superset _ (Present b) inc Hw1 Hpb) as [H2 _].
  cbn [Packed Present] in H2.
  assert (Hlen2 : Len (spread inc p (Present b)
                         (kept inc (Present b) p (Packed b))) =
                  inc * count_true (Present b)).
  { apply spread_length; [exact Hpb|].
    rewrite (kept_length inc p (Present b) (Packed b) Hpb Hfit). lia. }
  rewrite (spread_after_kept inc p (Present b) Hpb (Packed b) Hfit) in H2, Hlen2.
  eexists; eexists. split; [exact H1|]. split; [exact H2|].
  cbn [Packed Present]. split; [reflexivity|]. split; [exact Hlen2|].
  intros i Hb. unfold chunk.
  pose proof (subset_length _ _ Hpb) as Hl.
  rewrite (blanked_skipn inc i p (Present b) (Packed b) Hl Hfit).
  assert (Hi : i < length p).
  { rewrite Hl. apply nth_error_Some. congruence. }
  destruct (nth_error p i) as [pi|] eqn:Hpi;
    [|apply nth_error_None in Hpi; lia].
  rewrite (nth_error_skipn_cons _ _ _ _ Hpi), (nth_error_skipn_cons _ _ _ _ Hb).
  rewrite (nth_error_nth _ _ false Hpi). cbn [blanked].
  pose proof (rank_split (Present b) i) as Hsplit.
  rewrite (nth_error_skipn_cons _ _ _ _ Hb) in Hsplit. cbn [count_true] in Hsplit.
  apply firstn_app_exact. destruct pi; [|apply repeat_length].
  apply length_firstn_fits. unfold Len in Hfit. rewrite length_skipn.
  rewrite Hsplit, Nat.mul_add_distr_l, Nat.mul_succ_r in Hfit. lia.
Qed.

Lemma Batch_Reduce_own_mask (b : Batch) :
  Batch_inv b -> 0 < NumPresent b -> Batch_Reduce b (Present b) = Ok b.
Proof.
  intros [w Hinv] Hn.
  pose proof (width_of_inv b w Hn Hinv) as Hw.
  pose proof (width_fits b w Hw) as Hfit. unfold NumPresent in Hfit, Hinv.
  destruct (Batch_Reduce_subset b (Present b) w Hw (subset_refl _)) as [HR _].
  rewrite HR, (kept_same w _ _ Hfit).
  rewrite <- Hinv. unfold Len. rewrite firstn_all.
  destruct b; reflexivity.
Qed.

(** X8: on a batch that satisfies the batch invariant and has a present
    slot, [Reduce] and [Expand] by the batch's own mask return a batch with
    the same mask and the same entries. *)
Theorem same_mask_returns_batch (b : Batch) :
  Batch_inv b ->
  0 < NumPresent b ->
  Batch_Reduce b (Present b) = Ok b /\
  Batch_Expand b (Present b) = Ok b.
Proof.
  intros Hinv Hn. split; [now apply Batch_Reduce_own_mask|].
  destruct Hinv as [w Hinv].
  pose proof (width_of_inv b w Hn Hinv) as Hw.
  pose proof (width_fits b w Hw) as Hfit. unfold NumPresent in Hfit, Hinv.
  destruct (Batch_Expand_superset b (Present b) w Hw (subset_refl _)) as [HE _].
  rewrite HE, (spread_same w _ _ Hfit).
  rewrite <- Hinv. unfold Len. rewrite firstn_all.
  destruct b; reflexivity.
Qed.

(** ** What the output of Reduce looks like *)

Lemma kept_firstn (inc : nat) :
  forall (present bPresent : list bool) (v : Vector),
    kept inc bPresent present v =
      kept inc (firstn (length present) bPresent) present v.
Proof.
  induction present as [|p ps IH]; intros [|bi bs] v; try reflexivity.
  cbn [length firstn kept].
  destruct bi; [destruct p|]; now rewrite <- IH.
Qed.

Lemma and_mask_subset_firstn :
  forall present xPresent : list bool,
    length present <= length xPresent ->
    subset (and_mask present xPresent) (firstn (length present) xPresent).
Proof.
  induction present as [|p ps IH]; intros [|x xs] Hlen; simpl in *;
    try lia; constructor.
  - destruct p, x; simpl; auto.
  - apply IH. lia.
Qed.

Lemma count_true_firstn (n : nat) (m : list bool) :
  count_true (firstn n m) <= count_true m.
Proof.
  rewrite <- (firstn_skipn n m) at 2. rewrite count_true_app. lia.
Qed.

Lemma emitted_nonempty (present : list bool) (ins : list Batch) :
  Forall (fun x => count_true (and_mask present (Present x)) <> 0)
    (emitted ins present).
Proof.
  induction ins as [|x rest IH]; simpl; [constructor|].
  destruct (Nat.eqb_spec (count_true (and_mask present (Present x))) 0);
    constructor; assumption.
Qed.

(** The batch that [Batch.Reduce] returns for the intersected mask. *)
Lemma Batch_Reduce_and_mask (x r : Batch) (present : list bool) :
  Batch_Reduce x (and_mask present (Present x)) = Ok r ->
  Present r = and_mask present (Present x) /\
  Len (Packed r) =
    Len (Packed x) / NumPresent x * count_true (and_mask present (Present x)).
Proof.
  intros H. pose proof (Batch_Reduce_Present _ _ _ H) as HP.
  split; [exact HP|].
  destruct (Batch_Reduce_only_if _ _ _ H) as [Hn Hlen].
  pose proof (width_of_some x Hn) as Hw.
  set (inc := Len (Packed x) / NumPresent x) in *. clearbody inc.
  rewrite (Batch_Reduce_spec x _ inc Hw) in H.
  destruct (Reduce_panics (and_mask present (Present x)) (Present x));
    [discriminate|].
  injection H as <-. cbn [Packed].
  rewrite and_mask_length in Hlen.
  rewrite kept_firstn, and_mask_length.
  apply kept_length; [now apply and_mask_subset_firstn|].
  pose proof (width_fits x inc Hw) as Hfit. unfold NumPresent in Hfit.
  pose proof (count_true_firstn (length present) (Present x)).
  nia.
Qed.

(** X9: when the forward pass of [Reduce] returns, its output has at most as
    many timesteps as the input, holds no batch without a present slot, and
    every batch in it has a mask of the length of [present] and satisfies
    the batch invariant, whether or not the input batches do. *)
Theorem Reduce_output_invariants (s : Seq) (present : list bool) :
  reducible (Output s) present ->
  exists out,
    Reduce s present = Ok (reduceRes s out) /\
    length out <= length (Output s) /\
    Forall
      (fun r =>
         0 < NumPresent r /\
         length (Present r) = length present /\
         Batch_inv r)
      out.
Proof.
  intros Hred.
  destruct (Reduce_batches_spec present (Output s) Hred) as (out & Hrun & Hout).
  exists out. unfold Reduce. rewrite Hrun. split; [reflexivity|]. split.
  - rewrite <- (Forall2_length Hout), (emitted_prefix (Output s) present).
    rewrite length_firstn. lia.
  - pose proof (emitted_nonempty present (Output s)) as Hne.
    clear Hrun Hred.
    induction Hout as [|x r xs rs Hx _ IH]; constructor.
    + inversion Hne as [|x' xs' Hcut _]; subst.
      destruct (Batch_Reduce_and_mask x r present Hx) as [HP HL].
      unfold NumPresent at 1. rewrite HP, and_mask_length.
      split; [lia|]. split; [reflexivity|].
      exists (Len (Packed x) / NumPresent x).
      rewrite HL. unfold NumPresent. congruence.
    + apply IH. now inversion Hne.
Qed.

(** X10: [Reduce] does not look past the first timestep whose intersected
    mask is empty: whatever follows that timestep in the input, present in
    the target mask or not, well formed or not, the loop ends the same
    way. *)
Theorem Reduce_ignores_what_follows_the_cut
    (pre rest rest' : list Batch) (x : Batch) (present : list bool) :
  count_true (and_mask present (Present x)) = 0 ->
  Reduce_batches (pre ++ x :: rest) present =
  Reduce_batches (pre ++ x :: rest') present.
Proof.
  intros Hcut. induction pre as [|y pre IH]; cbn [app Reduce_batches].
  - destruct (intersect present (Present x) 0) as [p|] eqn:Hp; cbn [bind];
      [|reflexivity].
    apply intersect_inv in Hp. cbn [skipn] in Hp. subst p.
    destruct (Batch_Reduce x (and_mask present (Present x))) as [r|] eqn:Hr;
      cbn [bind]; [|reflexivity].
    apply Batch_Reduce_Present in Hr. unfold NumPresent. rewrite Hr, Hcut.
    reflexivity.
  - now rewrite IH.
Qed.

Lemma and_mask_all (present xPresent : list bool) :
  Forall (fun p => p = true) present ->
  length xPresent = length present ->
  and_mask present xPresent = xPresent.
Proof.
  intros Hall; revert xPresent.
  induction Hall as [|p ps -> _ IH]; intros [|x xs] Hlen; try discriminate.
  - reflexivity.
  - simpl. f_equal. apply IH. now injection Hlen.
Qed.

(** X11: reducing by a mask that selects every slot changes nothing.  When
    every batch of the input satisfies the batch invariant, has a present
    slot and a mask of the length of [present], and [present] is all
    [true], the output of [Reduce(s, present)] is the list [s.Output()],
    batch for batch. *)
Theorem Reduce_by_full_mask (s : Seq) (present : list bool) :
  Forall (fun p => p = true) present ->
  Forall
    (fun x =>
       Batch_inv x /\ 0 < NumPresent x /\
       length (Present x) = length present)
    (Output s) ->
  Reduce s present = Ok (reduceRes s (Output s)).
Proof.
  intros Hall Hwf. unfold Reduce.
  assert (H : Reduce_batches (Output s) present = Ok (Output s)).
  { induction Hwf as [|x xs (Hinv & Hn & Hlen) _ IH]; [reflexivity|].
    cbn [Reduce_batches].
    rewrite intersect_spec by (cbn [skipn]; lia). cbn [skipn bind].
    rewrite (and_mask_all present (Present x) Hall Hlen).
    rewrite (Batch_Reduce_own_mask x Hinv Hn). cbn [bind].
    destruct (Nat.eqb_spec (NumPresent x) 0); [lia|].
    now rewrite IH. }
  now rewrite H.
Qed.

(** X12: when the target mask selects no slot that the first timestep has,
    the output of [Reduce] has no timestep at all, whatever the later
    timesteps hold. *)
Theorem Reduce_to_nothing (s : Seq) (x : Batch) (rest : list Batch)
    (present : list bool) :
  Output s = x :: rest ->
  0 < NumPresent x ->
  length present <= length (Present x) ->
  count_true (and_mask present (Present x)) = 0 ->
  Reduce s present = Ok (reduceRes s []).
Proof.
  intros Hout Hn Hlen Hcut. unfold Reduce. rewrite Hout.
  cbn [Reduce_batches].
  rewrite intersect_spec by exact Hlen. cbn [skipn bind].
  rewrite (Batch_Reduce_spec x _ _ (width_of_some x Hn)).
  rewrite (and_mask_subset _ _ Hlen). cbn [bind].
  rewrite NumPresent_mkBatch, Hcut. reflexivity.
Qed.

(** ** The shapes that reduceRes.Propagate hands on *)

Lemma Forall2_pointwise (A B : Type) (R : A -> B -> Prop) :
  forall (l1 : list A) (l2 : list B),
    length l1 = length l2 ->
    (forall t a c, nth_error l1 t = Some a -> nth_error l2 t = Some c -> R a c) ->
    Forall2 R l1 l2.
Proof.
  induction l1 as [|a l1 IH]; intros [|c l2] Hlen H; try discriminate;
    constructor.
  - exact (H 0 a c eq_refl eq_refl).
  - apply IH; [now injection Hlen|].
    intros t a' c' Ha Hc. exact (H (S t) a' c' Ha Hc).
Qed.

Lemma Batch_inv_width (y : Batch) :
  Batch_inv y -> 0 < NumPresent y ->
  Len (Packed y) = Len (Packed y) / NumPresent y * NumPresent y.
Proof.
  intros [w Hinv] Hn.
  pose proof (width_of_inv y w Hn Hinv) as H1.
  rewrite (width_of_some y Hn) in H1. injection H1 as H1.
  rewrite H1. exact Hinv.
Qed.

(** A successful forward pass, timestep by timestep. *)
Lemma Reduce_batches_steps (present : list bool) :
  forall ins out : list Batch,
    Reduce_batches ins present = Ok out ->
    Forall2
      (fun y r =>
         Batch_Reduce y (and_mask present (Present y)) = Ok r /\
         0 < NumPresent r)
      (firstn (length out) ins) out.
Proof.
  induction ins as [|x rest IH]; intros out H.
  - simpl in H. injection H as <-. constructor.
  - cbn [Reduce_batches] in H.
    destruct (intersect present (Present x) 0) as [p|] eqn:Hp;
      cbn [bind] in H; [|discriminate].
    apply intersect_inv in Hp. cbn [skipn] in Hp. subst p.
    destruct (Batch_Reduce x (and_mask present (Present x))) as [r|] eqn:Hr;
      cbn [bind] in H; [|discriminate].
    destruct (NumPresent r =? 0) eqn:Hcut.
    + injection H as <-. constructor.
    + apply Nat.eqb_neq in Hcut.
      destruct (Reduce_batches rest present) as [out'|] eqn:Hrest;
        cbn [bind] in H; [|discriminate].
      injection H as <-. cbn [length firstn].
      constructor; [|now apply IH]. split; [exact Hr|lia].
Qed.

(** Expanding an upstream batch of the shape of an output batch gives a
    batch of the shape of the input batch. *)
Lemma Expand_upstream_shape (x r y : Batch) (present : list bool) :
  Batch_Reduce y (and_mask present (Present y)) = Ok r ->
  0 < NumPresent r ->
  same_shape x r ->
  Batch_inv y ->
  length (Present y) = length present ->
  exists e, Batch_Expand x (Present y) = Ok e /\ same_shape e y.
Proof.
  intros Hr Hnr [Hpx Hlx] Hinv Hlen.
  destruct (Batch_Reduce_and_mask y r present Hr) as [HP HL].
  destruct (Batch_Reduce_only_if _ _ _ Hr) as [Hny _].
  set (inc := Len (Packed y) / NumPresent y) in *.
  assert (Hsub : subset (Present x) (Present y)).
  { rewrite Hpx, HP.
    rewrite <- (firstn_all (Present y)) at 2. rewrite Hlen.
    apply and_mask_subset_firstn. lia. }
  assert (Hnx : 0 < NumPresent x) by (unfold NumPresent in *; congruence).
  assert (Hwx : width_of x = Ok inc).
  { apply width_of_inv; [exact Hnx|].
    rewrite Hlx, HL. unfold NumPresent. now rewrite Hpx, HP. }
  destruct (Batch_Expand_superset x (Present y) inc Hwx Hsub) as [He _].
  eexists; split; [exact He|]. split; [reflexivity|]. cbn [Packed].
  rewrite (spread_length inc (Present y) (Present x) (Packed x) Hsub
             (width_fits x inc Hwx)).
  symmetry. apply (Batch_inv_width y Hinv Hny).
Qed.

Lemma reduceRes_Propagate_shape
    (ins out u : list Batch) (present : list bool) :
  Reduce_batches ins present = Ok out ->
  Forall2 same_shape u out ->
  Forall (fun y => Batch_inv y /\ length (Present y) = length present) ins ->
  exists es,
    expand_upstream ins 0 u = Ok es /\
    Forall2 same_shape (es ++ map zero_like (skipn (length u) ins)) ins.
Proof.
  intros Hrun Hu Hwf.
  pose proof (Reduce_batches_steps present _ _ Hrun) as Hsteps.
  pose proof (Forall2_length Hu) as Hlu.
  pose proof (Forall2_length Hsteps) as Hlo. rewrite length_firstn in Hlo.
  assert (Hin : forall t x, nth_error u t = Some x ->
            exists y e, nth_error ins t = Some y /\
                        Batch_Expand x (Present y) = Ok e /\ same_shape e y).
  { intros t x Hx.
    destruct (Forall2_lookup_l _ _ _ _ _ Hu t x Hx) as (r & Hr & Hshape).
    destruct (Forall2_lookup_r _ _ _ _ _ Hsteps t r Hr) as (y & Hy & Hred & Hnr).
    assert (Hy' : nth_error ins t = Some y).
    { rewrite nth_error_firstn in Hy.
      destruct (Nat.ltb_spec t (length out)); [exact Hy|discriminate]. }
    rewrite Forall_forall in Hwf.
    destruct (Hwf y (nth_error_In _ _ Hy')) as [Hinv Hlen].
    destruct (Expand_upstream_shape x r y present Hred Hnr Hshape Hinv Hlen)
      as (e & He & Hse).
    now exists y, e. }
  destruct (expand_upstream_ok ins u 0) as (es & Hes & Hles & Hent).
  { intros t x Hx. destruct (Hin t x Hx) as (y & e & Hy & He & _).
    now exists y, e. }
  cbn [Nat.add] in Hent.
  exists es. split; [exact Hes|].
  apply Forall2_pointwise.
  - rewrite length_app, length_map, length_skipn. lia.
  - intros t a y Ha Hy.
    destruct (Nat.lt_ge_cases t (length u)) as [Hlt|Hge].
    + rewrite nth_error_app1 in Ha by lia.
      destruct (nth_error u t) as [x|] eqn:Hx;
        [|apply nth_error_None in Hx; lia].
      destruct (Hent t x Hx) as (y1 & e & Hy1 & He & Hn).
      destruct (Hin t x Hx) as (y2 & e2 & Hy2 & He2 & Hs2).
      assert (y1 = y) by congruence. assert (y2 = y) by congruence.
      assert (e = a) by congruence. subst. congruence.
    + rewrite nth_error_app2 in Ha by lia.
      rewrite nth_error_map, nth_error_skipn, Hles in Ha.
      replace (length u + (t - length u)) with t in Ha by lia.
      rewrite Hy in Ha. injection Ha as <-.
      split; [reflexivity|]. unfold zero_like, MakeVector, Len. cbn [Packed].
      apply repeat_length.
Qed.

(** X13: the adjoint of [Reduce] restores the input's shapes.  When every
    batch of [s.Output()] satisfies the batch invariant and has a mask of
    the length of the target mask, and [u] holds one upstream batch for
    each output timestep of the node, with the mask and the packed length
    of that output, the list that [Propagate] hands to [s.Propagate] holds
    one batch for each timestep of [s.Output()], with the mask and the
    packed length of that timestep's batch. *)
Theorem Propagate_matches_input_shape
    (s : Seq) (present : list bool) (out u : list Batch) :
  Reduce s present = Ok (reduceRes s out) ->
  Forall2 same_shape u out ->
  Forall (fun y => Batch_inv y /\ length (Present y) = length present)
    (Output s) ->
  exists newU,
    reduceRes_Propagate s u = Ok newU /\
    Forall2 same_shape newU (Output s).
Proof.
  intros Hnode Hu Hwf. unfold Reduce in Hnode.
  destruct (Reduce_batches (Output s) present) as [out'|] eqn:Hrun;
    cbn [bind] in Hnode; [|discriminate].
  injection Hnode as ->.
  destruct (reduceRes_Propagate_shape _ _ _ _ Hrun Hu Hwf) as (es & Hes & Hsh).
  unfold reduceRes_Propagate. rewrite Hes. cbn [bind].
  eexists; split; [reflexivity|exact Hsh].
Qed.

Lemma expand_upstream_length (inOut : list Batch) :
  forall (u es : list Batch) (i : nat),
    expand_upstream inOut i u = Ok es ->
    length u = 0 \/ i + length u <= length inOut.
Proof.
  induction u as [|x u IH]; intros es i H; [now left|right].
  cbn [expand_upstream] in H. unfold index in H.
  destruct (nth_error inOut i) as [y|] eqn:Hy; cbn [bind] in H; [|discriminate].
  assert (Hi : i < length inOut) by (apply nth_error_Some; congruence).
  destruct (Batch_Expand x (Present y)); cbn [bind] in H; [|discriminate].
  destruct (expand_upstream inOut (S i) u) as [es'|] eqn:Hes; cbn [bind] in H;
    [|discriminate].
  apply IH in Hes. simpl. lia.
Qed.

(** X14: [reduceRes.Propagate] does not return when [u] holds more batches
    than the input has timesteps: the first loop indexes [inOut] past its
    end, or panics before it gets there. *)
Theorem Propagate_rejects_long_upstream (s : Seq) (u : list Batch) :
  length (Output s) < length u ->
  forall newU, reduceRes_Propagate s u <> Ok newU.
Proof.
  intros Hlong newU H. unfold reduceRes_Propagate in H.
  destruct (expand_upstream (Output s) 0 u) as [es|] eqn:Hes; cbn [bind] in H;
    [|discriminate].
  apply expand_upstream_length in Hes. simpl in Hes. lia.
Qed.

(** ** pruneRes.Propagate *)

Lemma matching_upstream_spec (inOut : list Batch) :
  forall (u : list Batch) (i : nat),
    (i + length u <= length inOut ->
     matching_upstream inOut i u =
       Ok (map (fun xy => mkBatch (Packed (fst xy)) (Present (snd xy)))
             (combine u (skipn i inOut)))) /\
    (0 < length u -> length inOut < i + length u ->
     matching_upstream inOut i u = Err IndexOutOfRange).
Proof.
  induction u as [|x u IH]; intros i.
  - split; [reflexivity|simpl; lia].
  - cbn [matching_upstream length]. destruct (IH (S i)) as [IHok IHerr].
    destruct (skipn i inOut) as [|y tl0] eqn:Hs.
    + rewrite (skipn_nil_index _ _ _ Hs). cbn [bind].
      split; [|reflexivity]. intros Hle.
      apply (f_equal (@length Batch)) in Hs. rewrite length_skipn in Hs.
      simpl in Hs. lia.
    + destruct (skipn_cons_index _ _ _ _ _ Hs) as (Hidx & Hnext & Hlt).
      rewrite Hidx. cbn [bind]. split; intros Hlen.
      * rewrite IHok by lia. cbn [bind combine map fst snd].
        now rewrite Hnext.
      * intros Hlong. now rewrite IHerr by lia.
Qed.

(** X15: [pruneRes.Propagate] hands to its input one batch for each batch of
    [u], not one for each timestep of the input: the batch for [u[t]] holds
    the packed vector of [u[t]] and the mask of the input's timestep [t].
    It returns exactly when [u] is no longer than the input's output, and
    panics with an index out of range otherwise. *)
Theorem pruneRes_Propagate_outcomes (s : Seq) (u : list Batch) :
  (length u <= length (Output s) ->
   exists m,
     pruneRes_Propagate s u = Ok m /\
     length m = length u /\
     forall t x, nth_error u t = Some x ->
       exists y, nth_error (Output s) t = Some y /\
                 nth_error m t = Some (mkBatch (Packed x) (Present y))) /\
  (length (Output s) < length u ->
   pruneRes_Propagate s u = Err IndexOutOfRange).
Proof.
  unfold pruneRes_Propagate.
  destruct (matching_upstream_spec (Output s) u 0) as [Hok Herr].
  cbn [Nat.add skipn] in *. split; intros Hlen.
  - rewrite (Hok Hlen). eexists; split; [reflexivity|].
    split; [rewrite length_map, length_combine; lia|].
    intros t x Hx.
    assert (Ht : t < length u) by (apply nth_error_Some; congruence).
    destruct (nth_error (Output s) t) as [y|] eqn:Hy;
      [|apply nth_error_None in Hy; lia].
    exists y. split; [reflexivity|].
    rewrite nth_error_map.
    assert (Hc : nth_error (combine u (Output s)) t = Some (x, y)).
    { clear -Hx Hy. revert t Hx Hy. generalize (Output s) as l.
      induction u as [|a u IH]; intros [|c l] [|t] Hx Hy; simpl in *;
        try discriminate.
      - congruence.
      - now apply IH. }
    now rewrite Hc.
  - apply Herr; lia.
Qed.

Lemma Prune_batches_Packed (first : Batch) :
  forall sOut out : list Batch,
    Prune_batches first sOut = Ok out ->
    Forall2 (fun x r => Packed r = Packed x) sOut out.
Proof.
  induction sOut as [|x rest IH]; intros out H.
  - simpl in H. injection H as <-. constructor.
  - cbn [Prune_batches] in H.
    destruct (newPres (Present first) (Present x) 0); cbn [bind] in H;
      [|discriminate].
    destruct (Prune_batches first rest) as [out'|] eqn:Hr; cbn [bind] in H;
      [|discriminate].
    injection H as <-. constructor; [reflexivity|now apply IH].
Qed.

Lemma restore_masks (sOut out : list Batch) :
  Forall2 (fun x r => Packed r = Packed x) sOut out ->
  map (fun xy => mkBatch (Packed (fst xy)) (Present (snd xy)))
    (combine out sOut) = sOut.
Proof.
  intros H; induction H as [|x r xs rs Hp _ IH]; [reflexivity|].
  cbn [combine map fst snd]. rewrite IH, Hp. now destruct x.
Qed.

(** X16: the backward pass of [Prune] undoes its forward pass on the masks.
    Handing the node's own output to [pruneRes.Propagate] delegates exactly
    the batches of the input's output. *)
Theorem Prune_Propagate_round_trip
    (s : Seq) (first : Batch) (rest out : list Batch) :
  Output s = first :: rest ->
  Prune s = Ok (pruneRes s out) ->
  pruneRes_Propagate s out = Ok (Output s).
Proof.
  unfold Prune, pruneRes_Propagate. intros Hout. rewrite Hout.
  destruct (Prune_batches first (first :: rest)) as [out'|] eqn:Hrun;
    cbn [bind]; [|discriminate].
  intros H; injection H as ->.
  apply Prune_batches_Packed in Hrun.
  pose proof (Forall2_length Hrun) as Hlen.
  destruct (matching_upstream_spec (first :: rest) out 0) as [Hok _].
  cbn [Nat.add skipn] in Hok. rewrite Hok by lia.
  now rewrite (restore_masks _ _ Hrun).
Qed.

(** ** What Prune keeps *)

Lemma newPres_subset (xPresent : list bool) :
  forall (xs keeps : list bool),
    subset xs keeps ->
    forall j,
      skipn j xPresent = xs ->
      exists m,
        newPres keeps xPresent j = Ok m /\ count_true m = count_true xs.
Proof.
  intros xs keeps H; induction H as [|x k xs ks Hx _ IH]; intros j Hs.
  - exists []. split; reflexivity.
  - destruct (skipn_cons_index _ _ _ _ _ Hs) as (Hidx & Hnext & _).
    destruct (IH (S j) Hnext) as (m & Hm & Hc).
    cbn [newPres]. destruct k.
    + rewrite Hidx. cbn [bind]. rewrite Hm. cbn [bind].
      eexists; split; [reflexivity|]. destruct x; simpl; now rewrite Hc.
    + destruct x; [specialize (Hx eq_refl); discriminate|].
      exists m. split; [exact Hm|exact Hc].
Qed.

(** X17: [Prune] keeps the number of present sequences, and with it the
    batch invariant, when no timestep has a slot that timestep 0 lacks: for
    masks that are subsets of the first one, each output batch has the
    packed vector and the [NumPresent] of its timestep's batch, and
    satisfies the batch invariant if that batch does. *)
Theorem Prune_preserves_counts (s : Seq) (first : Batch) (rest : list Batch) :
  Output s = first :: rest ->
  Forall (fun x => subset (Present x) (Present first)) (Output s) ->
  exists out,
    Prune s = Ok (pruneRes s out) /\
    Forall2
      (fun x r =>
         Packed r = Packed x /\
         NumPresent r = NumPresent x /\
         (Batch_inv x -> Batch_inv r))
      (Output s) out.
Proof.
  intros Hout Hsub. unfold Prune. rewrite Hout in *.
  assert (H : forall sOut,
             Forall (fun x => subset (Present x) (Present first)) sOut ->
             exists out,
               Prune_batches first sOut = Ok out /\
               Forall2
                 (fun x r =>
                    Packed r = Packed x /\
                    NumPresent r = NumPresent x /\
                    (Batch_inv x -> Batch_inv r))
                 sOut out).
  { induction sOut as [|x xs IH]; intros Hall.
    - exists []. split; [reflexivity|constructor].
    - inversion Hall as [|x' xs' Hx Hxs]; subst.
      destruct (newPres_subset (Present x) _ _ Hx 0 eq_refl) as (m & Hm & Hc).
      destruct (IH Hxs) as (out & Ho & Hrel).
      cbn [Prune_batches]. rewrite Hm, Ho. cbn [bind].
      eexists; split; [reflexivity|]. constructor; [|exact Hrel].
      unfold NumPresent, Batch_inv. cbn [Packed Present].
      split; [reflexivity|]. split; [exact Hc|].
      intros [w Hw]. exists w. unfold NumPresent in *. cbn [Present].
      now rewrite Hc. }
  destruct (H _ Hsub) as (out & -> & Hrel). now exists out.
Qed.

(** X18: the output of [Prune] on a non-empty sequence has one batch for
    each timestep of the input; every mask in it has as many slots as
    timestep 0 has present sequences, and the first mask is all [true]. *)
Theorem Prune_output_masks (s : Seq) (first : Batch) (rest : list Batch) :
  Output s = first :: rest ->
  prunable s ->
  exists r rs,
    Prune s = Ok (pruneRes s (r :: rs)) /\
    length (r :: rs) = length (Output s) /\
    Forall (fun p => p = true) (Present r) /\
    Forall (fun r' => length (Present r') = NumPresent first) (r :: rs).
Proof.
  intros Hout Hp.
  assert (Hrun : exists out, Prune s = Ok (pruneRes s out) /\
                             length out = length (Output s)).
  { unfold prunable, Prune in *. rewrite Hout in *.
    destruct (Prune_batches_spec first (first :: rest) Hp) as (out & -> & Hrel).
    exists out. split; [reflexivity|]. symmetry. exact (Forall2_length Hrel). }
  destruct Hrun as (out & Hrun & Hlen).
  destruct (Prune_output_even s first rest out Hout Hrun)
    as (Heven & r & rs & -> & Hall).
  exists r, rs. repeat split; assumption.
Qed.

(** ** Propagate through Prune of Reduce *)

Lemma matching_shape :
  forall (u out2 : list Batch),
    Forall2 same_shape u out2 ->
    forall out1 : list Batch,
      Forall2 (fun x r => Packed r = Packed x) out1 out2 ->
      Forall2 same_shape
        (map (fun xy => mkBatch (Packed (fst xy)) (Present (snd xy)))
           (combine u out1))
        out1.
Proof.
  intros u out2 H; induction H as [|x r2 u out2 [_ Hl] _ IH];
    intros out1 Hp; inversion Hp as [|r1 r2' out1' out2' Hpk Hrest]; subst.
  - constructor.
  - cbn [combine map fst snd]. constructor; [|now apply IH].
    split; [reflexivity|]. cbn [Packed]. congruence.
Qed.

(** X20: the adjoint shape contract holds through a composition.  For a
    node [Prune(Reduce(s, present))] over a sequence whose batches satisfy
    the batch invariant and have masks of the length of [present], and an
    upstream list [u] of the shape of the node's output, [Propagate] ends
    in a call of [s.Propagate] on a list that has one batch for each
    timestep of [s.Output()], with the mask and the packed length of that
    timestep's batch. *)
Theorem Propagate_through_Prune_of_Reduce
    (s n1 n2 : Seq) (present : list bool) (u : list Batch) :
  Forall (fun y => Batch_inv y /\ length (Present y) = length present)
    (Output s) ->
  Reduce s present = Ok n1 ->
  Prune n1 = Ok n2 ->
  Forall2 same_shape u (Output n2) ->
  exists newU,
    Forall2 same_shape newU (Output s) /\
    Propagate n2 u = Propagate s newU.
Proof.
  intros Hwf Hred Hprune Hu. unfold Reduce in Hred.
  destruct (Reduce_batches (Output s) present) as [out1|] eqn:Hrun;
    cbn [bind] in Hred; [|discriminate].
  injection Hred as <-. unfold Prune in Hprune. cbn [Output] in Hprune.
  destruct out1 as [|r rs].
  - injection Hprune as <-. cbn [Output] in Hu.
    destruct (reduceRes_Propagate_shape _ _ _ _ Hrun Hu Hwf) as (es & Hes & Hsh).
    eexists; split; [exact Hsh|].
    cbn [Propagate]. unfold reduceRes_Propagate. rewrite Hes. reflexivity.
  - destruct (Prune_batches r (r :: rs)) as [out2|] eqn:Hp2;
      cbn [bind] in Hprune; [|discriminate].
    injection Hprune as <-. cbn [Output] in Hu.
    apply Prune_batches_Packed in Hp2.
    pose proof (Forall2_length Hu) as Hlu.
    pose proof (Forall2_length Hp2) as Hl2.
    pose proof (matching_shape _ _ Hu _ Hp2) as Hm.
    destruct (reduceRes_Propagate_shape _ _ _ _ Hrun Hm Hwf) as (es & Hes & Hsh).
    eexists; split; [exact Hsh|].
    cbn [Propagate]. unfold pruneRes_Propagate. cbn [Output].
    destruct (matching_upstream_spec (r :: rs) u 0) as [Hok _].
    cbn [Nat.add skipn] in Hok. rewrite Hok by lia. cbn [bind].
    unfold reduceRes_Propagate. rewrite Hes. reflexivity.
Qed.

(** ** What Prune does not check *)

Lemma newPres_count (xPresent : list bool) :
  forall (keeps m : list bool) (j : nat),
    newPres keeps xPresent j = Ok m ->
    count_true m <= count_true (skipn j xPresent) /\
    (exceeds (skipn j xPresent) keeps ->
     count_true m < count_true (skipn j xPresent)).
Proof.
  induction keeps as [|keep rest IH]; intros m j H.
  - simpl in H. injection H as <-. split; [simpl; lia|].
    intros He. now apply not_exceeds_nil_r in He.
  - cbn [newPres] in H.
    destruct (skipn j xPresent) as [|x xs] eqn:Hs.
    + destruct keep.
      * rewrite (skipn_nil_index _ _ _ Hs) in H. discriminate.
      * specialize (IH m (S j)). rewrite skipn_tl, Hs in IH. cbn [tl] in IH.
        destruct (IH H) as [Hle _]. split; [exact Hle|].
        intros He. now apply not_exceeds_nil_l in He.
    + destruct (skipn_cons_index _ _ _ _ _ Hs) as (Hidx & Hnext & _).
      destruct keep.
      * rewrite Hidx in H. cbn [bind] in H.
        destruct (newPres rest xPresent (S j)) as [m'|] eqn:Hm; cbn [bind] in H;
          [|discriminate].
        injection H as <-. specialize (IH m' (S j)).
        rewrite skipn_tl, Hs in IH. cbn [tl] in IH.
        destruct (IH Hm) as [Hle Hlt]. rewrite exceeds_cons.
        split; [destruct x; simpl; lia|].
        intros [[_ Hf]|He]; [discriminate|].
        specialize (Hlt He). destruct x; simpl; lia.
      * specialize (IH m (S j)). rewrite skipn_tl, Hs in IH. cbn [tl] in IH.
        destruct (IH H) as [Hle Hlt]. rewrite exceeds_cons.
        split; [destruct x; simpl; lia|].
        intros [[-> _]|He]; [simpl; lia|].
        specialize (Hlt He). destruct x; simpl; lia.
Qed.

(** X21: [Prune] does not check that a sequence absent at timestep 0 stays
    absent.  Each output batch keeps the packed vector of its timestep and
    never has more present sequences than the batch it comes from; where a
    timestep has a sequence present in a slot that timestep 0 marks absent,
    the output batch has fewer present sequences than its unchanged packed
    vector holds chunks for. *)
Theorem Prune_drops_late_slots (s : Seq) (first : Batch) (rest : list Batch) :
  Output s = first :: rest ->
  prunable s ->
  exists out,
    Prune s = Ok (pruneRes s out) /\
    Forall2
      (fun x r =>
         Packed r = Packed x /\
         NumPresent r <= NumPresent x /\
         (exceeds (Present x) (Present first) -> NumPresent r < NumPresent x))
      (Output s) out.
Proof.
  intros Hout Hp. unfold prunable, Prune in *. rewrite Hout in *.
  destruct (Prune_batches_spec first (first :: rest) Hp) as (out & Hrun & _).
  rewrite Hrun. cbn [bind]. exists out. split; [reflexivity|].
  clear Hp. revert out Hrun. generalize (first :: rest) as sOut.
  induction sOut as [|x xs IH]; intros out H.
  - simpl in H. injection H as <-. constructor.
  - cbn [Prune_batches] in H.
    destruct (newPres (Present first) (Present x) 0) as [m|] eqn:Hm;
      cbn [bind] in H; [|discriminate].
    destruct (Prune_batches first xs) as [out'|] eqn:Hr; cbn [bind] in H;
      [|discriminate].
    injection H as <-. constructor; [|now apply IH].
    destruct (newPres_count _ _ _ _ Hm) as [Hle Hlt]. cbn [skipn] in Hle, Hlt.
    unfold NumPresent. cbn [Packed Present]. repeat split; assumption.
Qed.

(** ** Propagate on the node's own output *)

Lemma blanked_chunk (inc : nat) (p bPresent : list bool) (v : Vector) (i : nat) :
  length p = length bPresent ->
  inc * count_true bPresent <= Len v ->
  nth_error bPresent i = Some true ->
  chunk inc (rank bPresent i) (blanked inc bPresent p v) =
    if nth i p false then chunk inc (rank bPresent i) v else repeat zero inc.
Proof.
  intros Hl Hfit Hb. unfold chunk.
  rewrite (blanked_skipn inc i p bPresent v Hl Hfit).
  assert (Hi : i < length p).
  { rewrite Hl. apply nth_error_Some. congruence. }
  destruct (nth_error p i) as [pi|] eqn:Hpi;
    [|apply nth_error_None in Hpi; lia].
  rewrite (nth_error_skipn_cons _ _ _ _ Hpi), (nth_error_skipn_cons _ _ _ _ Hb).
  rewrite (nth_error_nth _ _ false Hpi). cbn [blanked].
  pose proof (rank_split bPresent i) as Hsplit.
  rewrite (nth_error_skipn_cons _ _ _ _ Hb) in Hsplit. cbn [count_true] in Hsplit.
  apply firstn_app_exact. destruct pi; [|apply repeat_length].
  apply length_firstn_fits. unfold Len in Hfit. rewrite length_skipn.
  rewrite Hsplit, Nat.mul_add_distr_l, Nat.mul_succ_r in Hfit. lia.
Qed.

Lemma nth_and_mask :
  forall (present xPresent : list bool) (i : nat),
    nth_error xPresent i = Some true ->
    nth i (and_mask present xPresent) false = nth i present false.
Proof.
  induction present as [|p ps IH]; intros [|x xs] [|i] H; simpl in *;
    try discriminate; try reflexivity.
  - injection H as ->. apply andb_true_r.
  - now apply IH.
Qed.

Lemma and_mask_subset_even (present xPresent : list bool) :
  length xPresent = length present ->
  subset (and_mask present xPresent) xPresent.
Proof.
  intros Hlen. rewrite <- (firstn_all xPresent) at 2. rewrite Hlen.
  apply and_mask_subset_firstn. lia.
Qed.

Lemma Propagate_own_output_lists (G : list Batch) (present : list bool) :
  forall (ins : list Batch) (i : nat),
    skipn i G = ins ->
    reducible ins present ->
    Forall (fun y => length (Present y) = length present) ins ->
    exists out,
      Reduce_batches ins present = Ok out /\
      length out <= length ins /\
      expand_upstream G i out =
        Ok (map (projected present) (firstn (length out) ins)).
Proof.
  induction ins as [|x rest IH]; intros i Hs Hred Hlen.
  - exists []. repeat split. simpl. lia.
  - destruct Hred as (Hn & Hle & Hrest).
    inversion Hlen as [|x' r' Hx Hxs]; subst x' r'.
    destruct (skipn_cons_index _ _ _ _ _ Hs) as (Hidx & Hnext & _).
    pose proof (width_of_some x Hn) as Hw.
    pose proof (and_mask_subset_even present (Present x) Hx) as Hsub.
    cbn [Reduce_batches].
    rewrite intersect_spec by exact Hle. cbn [skipn bind].
    destruct (Batch_Reduce_subset x _ _ Hw Hsub) as [Hr Hwr].
    rewrite Hr. cbn [bind]. rewrite NumPresent_mkBatch.
    destruct (Nat.eqb_spec (count_true (and_mask present (Present x))) 0)
      as [Hz|Hnz].
    + exists []. repeat split. simpl. lia.
    + destruct (IH (S i) Hnext (Hrest Hnz) Hxs) as (out & Hout & Hlo & Hexp).
      rewrite Hout. cbn [bind]. eexists; split; [reflexivity|].
      split; [simpl; lia|].
      cbn [expand_upstream length firstn map]. rewrite Hidx. cbn [bind].
      destruct (Batch_Expand_superset _ (Present x) _ (Hwr ltac:(lia)) Hsub)
        as [He _].
      cbn [Packed Present] in He. rewrite He. cbn [bind].
      rewrite Hexp. cbn [bind]. unfold projected.
      now rewrite (spread_after_kept _ _ _ Hsub (Packed x) (width_fits x _ Hw)).
Qed.

(** X22: handing the node's own output to [reduceRes.Propagate] projects the
    input onto the target mask.  For a sequence whose masks have the length
    of [present], the delegated list holds, for each emitted timestep, the
    input batch with the chunks of the slots that [present] does not select
    replaced by zeros, and for each later timestep a batch of zeros. *)
Theorem Propagate_of_own_output (s : Seq) (present : list bool) :
  reducible (Output s) present ->
  Forall (fun y => length (Present y) = length present) (Output s) ->
  exists out,
    Reduce s present = Ok (reduceRes s out) /\
    reduceRes_Propagate s out =
      Ok (map (projected present) (firstn (length out) (Output s)) ++
          map zero_like (skipn (length out) (Output s))) /\
    forall x i,
      In x (Output s) ->
      nth_error (Present x) i = Some true ->
      let inc := Len (Packed x) / NumPresent x in
      chunk inc (rank (Present x) i) (Packed (projected present x)) =
        if nth i present false
        then chunk inc (rank (Present x) i) (Packed x)
        else repeat zero inc.
Proof.
  intros Hred Hlen.
  destruct (Propagate_own_output_lists (Output s) present (Output s) 0
              eq_refl Hred Hlen) as (out & Hrun & _ & Hexp).
  exists out. unfold Reduce, reduceRes_Propagate. rewrite Hrun, Hexp.
  split; [reflexivity|]. split; [reflexivity|].
  intros x i Hin Hb. cbv zeta. unfold projected. cbn [Packed].
  rewrite Forall_forall in Hlen. specialize (Hlen x Hin).
  assert (Hn : 0 < NumPresent x).
  { unfold NumPresent. apply nth_error_split in Hb.
    destruct Hb as (l1 & l2 & -> & _). rewrite count_true_app. simpl. lia. }
  pose proof (width_fits x _ (width_of_some x Hn)) as Hfit.
  rewrite (blanked_chunk _ _ _ _ i); auto.
  - now rewrite (nth_and_mask present (Present x) i Hb).
  - rewrite and_mask_length. now symmetry.
Qed.

(** [Prune] on references returns only on sequences whose masks hold the
    kept slots. *)
Lemma Prune_obj_only_if_prunable (h : store) (s : SeqObj) (hr : store * SeqObj) :
  Prune_obj h s = Ok hr -> prunable_obj s.
Proof.
  intros H. pose proof (Prune_obj_load h s) as Hl. rewrite H in Hl.
  destruct Hl as [_ Hl]. apply Prune_only_if_prunable in Hl.
  unfold prunable in Hl. unfold prunable_obj.
  rewrite Output_load_seq in Hl.
  destruct (OutputObj s) as [|first rest]; [exact I|].
  cbn [map] in Hl. rewrite <- (map_cons (load h)) in Hl.
  rewrite Forall_map in Hl. exact Hl.
Qed.

End Anyseq.

(** ** Instances and counterexamples

    The entries are natural numbers here; the slots are called A, B and C in
    the comments. *)

Lemma Reduce_Expand_round_trip_witness :
  round_trips 0 (mkBatch [1; 2; 3; 4] [true; false; true]) [true; true; true].
Proof.
  apply Reduce_Expand_round_trip.
  - exists 2. reflexivity.
  - cbv. lia.
  - repeat constructor; auto.
Defined.

(** An empty batch satisfies the invariant, and [Expand] divides by zero. *)
Lemma round_trip_fails_on_empty_batch :
  Batch_inv (mkBatch (@nil nat) [false]) /\
  superset [true] (Present (mkBatch (@nil nat) [false])) /\
  Batch_Expand 0 (mkBatch (@nil nat) [false]) [true] = Err DivideByZero /\
  ~ round_trips 0 (mkBatch (@nil nat) [false]) [true].
Proof.
  split; [exists 0; reflexivity|].
  split; [repeat constructor; discriminate|].
  split; [reflexivity|].
  intros (e & r & He & _). discriminate.
Qed.

Lemma Reduce_Expand_length_witness :
  Reduce_sized (mkBatch [1; 2; 3; 4] [true; false; true]) [true; false; true] /\
  Expand_sized 0 (mkBatch [1; 2; 3; 4] [true; false; true]) [true; false; true].
Proof.
  destruct (Reduce_Expand_length nat 0
              (mkBatch [1; 2; 3; 4] [true; false; true]) [true; false; true])
    as [HR HE].
  - exists 2. reflexivity.
  - cbv. lia.
  - split; [apply HR|apply HE]; repeat constructor; auto.
Defined.

(** A batch without a present slot satisfies the invariant and both
    preconditions, and neither operation returns. *)
Lemma length_fails_on_empty_batch :
  Batch_inv (mkBatch (@nil nat) [false]) /\
  subset [false] (Present (mkBatch (@nil nat) [false])) /\
  superset [false] (Present (mkBatch (@nil nat) [false])) /\
  Batch_Reduce (mkBatch (@nil nat) [false]) [false] = Err DivideByZero /\
  Batch_Expand 0 (mkBatch (@nil nat) [false]) [false] = Err DivideByZero /\
  ~ Reduce_sized (mkBatch (@nil nat) [false]) [false] /\
  ~ Expand_sized 0 (mkBatch (@nil nat) [false]) [false].
Proof.
  split; [exists 0; reflexivity|].
  repeat split; try (repeat constructor; discriminate);
    intros (r & H & _); discriminate.
Qed.

Lemma empty_batch_divides_by_zero_witness :
  NumPresent (mkBatch [1; 2] [false; false]) = 0 /\
  Batch_Reduce (mkBatch [1; 2] [false; false]) [true; false] = Err DivideByZero /\
  Batch_Expand 0 (mkBatch [1; 2] [false; false]) [true; false] = Err DivideByZero.
Proof.
  split; [reflexivity|].
  destruct (empty_batch_divides_by_zero nat 0
              (mkBatch [1; 2] [false; false]) [true; false] eq_refl)
    as (HR & HE & _).
  split; assumption.
Defined.

Lemma precondition_panics_witness :
  Batch_Reduce (mkBatch [1; 2; 3; 4] [true; false; true]) [true; true; false] =
    Err (Message "cannot re-add sequences") /\
  Batch_Expand 0 (mkBatch [1; 2; 3; 4] [true; false; true]) [true; true; false] =
    Err (Message "argument to Expand must be a superset").
Proof.
  destruct (precondition_panics nat 0
              (mkBatch [1; 2; 3; 4] [true; false; true]) [true; true; false])
    as (HR & HE & _).
  - cbv. lia.
  - reflexivity.
  - split; [apply HR; now exists 1|apply HE; now exists 2].
Defined.

Lemma accesses_in_range_witness :
  (exists st, Reduce_run (mkBatch [1; 2; 3; 4] [true; false; true])
                [true; false; true] = Ok st /\
              Forall (in_range (mkBatch [1; 2; 3; 4] [true; false; true]))
                (trace st) /\
              indexed (trace st) = [0; 1; 2]) /\
  (exists st, Expand_run 0 (mkBatch [1; 2; 3; 4] [true; false; true])
                [true; false; true] = Ok st /\
              Forall (in_range (mkBatch [1; 2; 3; 4] [true; false; true]))
                (trace st) /\
              indexed (trace st) = [0; 1; 2]).
Proof.
  destruct (accesses_in_range nat 0
              (mkBatch [1; 2; 3; 4] [true; false; true]) [true; false; true])
    as [HR HE].
  - exists 2. reflexivity.
  - cbv. lia.
  - reflexivity.
  - split; [apply HR|apply HE]; repeat constructor; auto.
Defined.

(** The accesses of two runs, as recorded. *)
Example Reduce_run_trace :
  Reduce_run (mkBatch [1; 2; 3; 4] [true; false; true]) [true; false; false] =
    Ok (mkChunker [[1; 2]] 4 0
          [IndexPresent 0; IndexPresent 1; IndexPresent 2; SlicePacked 0 2]).
Proof. reflexivity. Qed.

Example Expand_run_trace :
  Expand_run 0 (mkBatch [1; 2] [true; false; false]) [true; false; true] =
    Ok (mkChunker [[1; 2]; [0; 0]] 2 0
          [IndexPresent 0; IndexPresent 1; IndexPresent 2; SlicePacked 0 2]).
Proof. reflexivity. Qed.


(** Masks [{A,B}, {A,B}, {B}] and a target mask that selects [A]. *)
Lemma Reduce_truncates_witness :
  truncated (Source [mkBatch [1; 2] [true; true];
                     mkBatch [3; 4] [true; true];
                     mkBatch [5] [false; true]]) [true; false].
Proof.
  apply Reduce_truncates.
  cbv. repeat split; try lia; intros _; repeat split; lia.
Defined.

(** Masks [{A,B}, {A}, {}] and a target mask that selects [A] and [B]: two
    timesteps are to be emitted, but the third batch has no present slot and
    [Batch.Reduce] divides by zero. *)
Lemma Reduce_panics_on_empty_timestep :
  length (emitted [mkBatch [1; 2] [true; true];
                   mkBatch [3] [true; false];
                   mkBatch (@nil nat) [false; false]] [true; true]) = 2 /\
  Reduce (Source [mkBatch [1; 2] [true; true];
                  mkBatch [3] [true; false];
                  mkBatch (@nil nat) [false; false]]) [true; true] =
    Err DivideByZero /\
  ~ truncated (Source [mkBatch [1; 2] [true; true];
                       mkBatch [3] [true; false];
                       mkBatch (@nil nat) [false; false]]) [true; true].
Proof.
  split; [reflexivity|]. split; [reflexivity|].
  intros (out & H & _). discriminate.
Qed.

Lemma Propagate_restores_shape_witness :
  shape_restored 0
    (Source [mkBatch [1; 2] [true; true];
             mkBatch [3] [true; false];
             mkBatch [4] [false; true]])
    [mkBatch [7] [true; false]; mkBatch [8] [true; false]].
Proof.
  apply (Propagate_restores_shape nat 0
           (Source [mkBatch [1; 2] [true; true];
                    mkBatch [3] [true; false];
                    mkBatch [4] [false; true]])
           [true; false]
           [mkBatch [1] [true; false]; mkBatch [3] [true; false]]
           [mkBatch [7] [true; false]; mkBatch [8] [true; false]]).
  - reflexivity.
  - repeat constructor.
  - intros [|[|t]] y Ht Hy; simpl in *; try lia;
      injection Hy as <-; simpl; lia.
Defined.

(** A target mask of one slot on a sequence of two slots: the node is built,
    and [Propagate] indexes the upstream mask past its end. *)
Lemma Propagate_panics_on_short_mask :
  Reduce (Source [mkBatch [1; 2] [true; true]]) [true] =
    Ok (reduceRes (Source [mkBatch [1; 2] [true; true]]) [mkBatch [1] [true]]) /\
  Forall2 (@same_shape nat) [mkBatch [5] [true]] [mkBatch [1] [true]] /\
  reduceRes_Propagate 0 (Source [mkBatch [1; 2] [true; true]])
    [mkBatch [5] [true]] = Err IndexOutOfRange /\
  ~ shape_restored 0 (Source [mkBatch [1; 2] [true; true]]) [mkBatch [5] [true]].
Proof.
  split; [reflexivity|]. split; [repeat constructor|].
  split; [reflexivity|]. intros (newU & H & _). discriminate.
Qed.

(** A store of two vector objects, [[1; 2]] at address 0 and [[3]] at
    address 1, and a sequence of two timesteps that refer to them. *)
Lemma Prune_rewrites_masks_witness :
  masks_rewritten [[1; 2]; [3]]
    (SourceObj [mkBatchObj 0 [true; false; true];
                mkBatchObj 1 [true; false; false]])
    (mkBatchObj 0 [true; false; true]).
Proof.
  destruct (Prune_rewrites_masks nat [[1; 2]; [3]]
              (SourceObj [mkBatchObj 0 [true; false; true];
                          mkBatchObj 1 [true; false; false]])) as [_ H].
  - cbv. repeat constructor.
  - apply (H _ _ eq_refl).
Defined.

(** Slot [B] is kept at timestep 0 and the mask of timestep 1 has one slot. *)
Lemma Prune_panics_on_short_mask :
  Prune_obj [[1]; [2]]
    (SourceObj [mkBatchObj 0 [false; true]; mkBatchObj 1 [true]]) =
    Err IndexOutOfRange /\
  ~ masks_rewritten [[1]; [2]]
      (SourceObj [mkBatchObj 0 [false; true]; mkBatchObj 1 [true]])
      (mkBatchObj 0 [false; true]).
Proof.
  split; [reflexivity|]. intros (out & H & _). discriminate.
Qed.

(** The witness, evaluated: the output batches hold the addresses 0 and 1
    of the input batches, and the store is the one given. *)
Example Prune_obj_shares_vectors :
  Prune_obj [[1; 2]; [3]]
    (SourceObj [mkBatchObj 0 [true; false; true];
                mkBatchObj 1 [true; false; false]]) =
    Ok ([[1; 2]; [3]],
        pruneResObj
          (SourceObj [mkBatchObj 0 [true; false; true];
                      mkBatchObj 1 [true; false; false]])
          [mkBatchObj 0 [true; true]; mkBatchObj 1 [true; false]]).
Proof. reflexivity. Qed.

Lemma Prune_keeps_pruned_witness :
  masks_unchanged
    (Source [mkBatch [1; 2] [true; true]; mkBatch [3] [true; false]]).
Proof.
  apply (Prune_keeps_pruned nat
           (Source [mkBatch [1; 2] [true; true]; mkBatch [3] [true; false]])
           (mkBatch [1; 2] [true; true]) [mkBatch [3] [true; false]]).
  - reflexivity.
  - repeat constructor.
  - repeat constructor.
Defined.

(** Every slot is present at timestep 0.  With a shorter mask at timestep 1
    [Prune] panics; with a longer one it returns that mask cut to the slots
    of timestep 0. *)
Lemma Prune_changes_uneven_masks :
  Forall (fun p => p = true) (Present (mkBatch [1; 2] [true; true])) /\
  Prune (Source [mkBatch [1; 2] [true; true]; mkBatch [3] [true]]) =
    Err IndexOutOfRange /\
  ~ masks_unchanged (Source [mkBatch [1; 2] [true; true]; mkBatch [3] [true]]) /\
  Forall (fun p => p = true) (Present (mkBatch [1] [true])) /\
  Prune (Source [mkBatch [1] [true]; mkBatch [2; 3] [true; true]]) =
    Ok (pruneRes (Source [mkBatch [1] [true]; mkBatch [2; 3] [true; true]])
          [mkBatch [1] [true]; mkBatch [2; 3] [true]]) /\
  ~ masks_unchanged (Source [mkBatch [1] [true]; mkBatch [2; 3] [true; true]]).
Proof.
  split; [repeat constructor|]. split; [reflexivity|].
  split; [intros (out & H & _); discriminate|].
  split; [repeat constructor|]. split; [reflexivity|].
  intros (out & H & Hrel). cbv in H. injection H as <-.
  inversion Hrel as [|x r xs rs _ Hrest]; subst.
  inversion Hrest as [|x' r' xs' rs' Hmask _]; subst.
  discriminate.
Qed.

(** ** Instances of the further properties *)

Lemma Batch_Reduce_outcomes_witness :
  Batch_Reduce (mkBatch [1; 2] [true; true]) [true; true; false] =
    Err IndexOutOfRange /\
  (exists r, Batch_Reduce (mkBatch [1; 2] [true; true]) [false] = Ok r).
Proof.
  split.
  - apply (Batch_Reduce_outcomes nat (mkBatch [1; 2] [true; true])
             [true; true; false]).
    cbv. repeat split; try lia.
    intros [[|[|[|i]]] [H1 H2]]; discriminate.
  - apply (Batch_Reduce_outcomes nat (mkBatch [1; 2] [true; true]) [false]).
    cbv. repeat split; try lia.
    intros [[|[|i]] [H1 H2]]; discriminate.
Defined.

Lemma Batch_Expand_outcomes_witness :
  Batch_Expand 0 (mkBatch [1; 2] [true; true]) [true; true; true] =
    Err IndexOutOfRange /\
  (exists r, Batch_Expand 0 (mkBatch [1; 2] [true; true]) [true] = Ok r).
Proof.
  split.
  - apply (Batch_Expand_outcomes nat 0 (mkBatch [1; 2] [true; true])
             [true; true; true]).
    cbv. repeat split; try lia.
    intros [[|[|[|i]]] [H1 H2]]; discriminate.
  - apply (Batch_Expand_outcomes nat 0 (mkBatch [1; 2] [true; true]) [true]).
    cbv. repeat split; try lia.
    intros [[|[|i]] [H1 H2]]; discriminate.
Defined.

Lemma Reduce_copies_kept_chunks_witness :
  exists r,
    Batch_Reduce (mkBatch [1; 2; 3; 4; 5; 6] [true; true; true])
      [false; true; true] = Ok r /\
    chunk 2 1 (Packed r) = [5; 6].
Proof.
  destruct (Reduce_copies_kept_chunks nat
              (mkBatch [1; 2; 3; 4; 5; 6] [true; true; true])
              [false; true; true]) as (r & Hr & _ & _ & Hchunk).
  - cbv. lia.
  - repeat constructor; auto; discriminate.
  - exists r. split; [exact Hr|].
    destruct (Hchunk 2 eq_refl) as [Hc _]. exact Hc.
Defined.

Lemma Reduce_Reduce_witness :
  exists r1 r,
    Batch_Reduce (mkBatch [1; 2; 3] [true; true; true]) [true; true; false] =
      Ok r1 /\
    Batch_Reduce r1 [false; true; false] = Ok r /\
    Batch_Reduce (mkBatch [1; 2; 3] [true; true; true]) [false; true; false] =
      Ok r.
Proof.
  apply Reduce_Reduce.
  - cbv. lia.
  - repeat constructor; auto; discriminate.
  - repeat constructor; auto; discriminate.
Defined.

Lemma Expand_Expand_witness :
  exists r1 r,
    Batch_Expand 0 (mkBatch [1] [false; true; false]) [true; true; false] =
      Ok r1 /\
    Batch_Expand 0 r1 [true; true; true] = Ok r /\
    Batch_Expand 0 (mkBatch [1] [false; true; false]) [true; true; true] =
      Ok r.
Proof.
  apply Expand_Expand.
  - cbv. lia.
  - repeat constructor; auto; discriminate.
  - repeat constructor; auto; discriminate.
Defined.

Lemma Reduce_after_Expand_witness :
  exists e r,
    Batch_Expand 0 (mkBatch [1; 2] [true; false; true]) [true; true; true] =
      Ok e /\
    Batch_Reduce e [false; false; true] = Ok r /\
    Batch_Reduce (mkBatch [1; 2] [true; false; true]) [false; false; true] =
      Ok r.
Proof.
  apply Reduce_after_Expand.
  - cbv. lia.
  - repeat constructor; auto; discriminate.
  - repeat constructor; auto; discriminate.
Defined.

Lemma Expand_after_Reduce_witness :
  exists r1 r2,
    Batch_Reduce (mkBatch [1; 2; 3] [true; true; true]) [true; false; true] =
      Ok r1 /\
    Batch_Expand 0 r1 [true; true; true] = Ok r2 /\
    chunk 1 1 (Packed r2) = [0].
Proof.
  destruct (Expand_after_Reduce nat 0 (mkBatch [1; 2; 3] [true; true; true])
              [true; false; true]) as (r1 & r2 & H1 & H2 & _ & _ & Hchunk).
  - cbv. lia.
  - repeat constructor; auto; discriminate.
  - exists r1, r2. split; [exact H1|]. split; [exact H2|].
    exact (Hchunk 1 eq_refl).
Defined.

Lemma same_mask_returns_batch_witness :
  Batch_Reduce (mkBatch [1; 2; 3; 4] [true; false; true]) [true; false; true] =
    Ok (mkBatch [1; 2; 3; 4] [true; false; true]) /\
  Batch_Expand 0 (mkBatch [1; 2; 3; 4] [true; false; true])
    [true; false; true] =
    Ok (mkBatch [1; 2; 3; 4] [true; false; true]).
Proof.
  apply (same_mask_returns_batch nat 0 (mkBatch [1; 2; 3; 4] [true; false; true])).
  - exists 2. reflexivity.
  - cbv. lia.
Defined.

Lemma Reduce_output_invariants_witness :
  exists out,
    Reduce (Source [mkBatch [1; 2; 9] [true; true];
                    mkBatch [3; 4] [true; true];
                    mkBatch [5] [false; true]]) [true; false] =
      Ok (reduceRes (Source [mkBatch [1; 2; 9] [true; true];
                             mkBatch [3; 4] [true; true];
                             mkBatch [5] [false; true]]) out) /\
    Forall (fun r : Batch nat => Batch_inv r) out.
Proof.
  destruct (Reduce_output_invariants nat
              (Source [mkBatch [1; 2; 9] [true; true];
                       mkBatch [3; 4] [true; true];
                       mkBatch [5] [false; true]]) [true; false])
    as (out & Hrun & _ & Hall).
  - cbv. repeat split; try lia; intros _; repeat split; lia.
  - exists out. split; [exact Hrun|].
    apply (Forall_impl _ (fun r H => proj2 (proj2 H)) Hall).
Defined.

(** Masks [{A}, {B}, {A}] and a target mask that selects [A]: the third
    timestep is not looked at. *)
Lemma Reduce_ignores_what_follows_the_cut_witness :
  Reduce_batches [mkBatch [1] [true; false]; mkBatch [2] [false; true];
                  mkBatch [3] [true; false]] [true; false] =
  Reduce_batches [mkBatch [1] [true; false]; mkBatch [2] [false; true]]
    [true; false].
Proof.
  apply (Reduce_ignores_what_follows_the_cut nat
           [mkBatch [1] [true; false]] [mkBatch [3] [true; false]] []
           (mkBatch [2] [false; true]) [true; false]).
  reflexivity.
Defined.

Lemma Reduce_by_full_mask_witness :
  Reduce (Source [mkBatch [1; 2] [true; true]; mkBatch [3] [true; false]])
    [true; true] =
    Ok (reduceRes
          (Source [mkBatch [1; 2] [true; true]; mkBatch [3] [true; false]])
          [mkBatch [1; 2] [true; true]; mkBatch [3] [true; false]]).
Proof.
  apply (Reduce_by_full_mask nat
           (Source [mkBatch [1; 2] [true; true]; mkBatch [3] [true; false]])
           [true; true]).
  - repeat constructor.
  - repeat constructor; try (exists 1; reflexivity).
Defined.

Lemma Reduce_to_nothing_witness :
  Reduce (Source [mkBatch [1] [false; true]; mkBatch [2; 3] [true; true]])
    [true; false] =
    Ok (reduceRes
          (Source [mkBatch [1] [false; true]; mkBatch [2; 3] [true; true]])
          []).
Proof.
  apply (Reduce_to_nothing nat
           (Source [mkBatch [1] [false; true]; mkBatch [2; 3] [true; true]])
           (mkBatch [1] [false; true]) [mkBatch [2; 3] [true; true]]
           [true; false]).
  - reflexivity.
  - cbv. lia.
  - cbv. lia.
  - reflexivity.
Defined.

Lemma Propagate_matches_input_shape_witness :
  exists newU,
    reduceRes_Propagate 0
      (Source [mkBatch [1; 2] [true; true];
               mkBatch [3] [true; false];
               mkBatch [4] [false; true]])
      [mkBatch [7] [true; false]; mkBatch [8] [true; false]] = Ok newU /\
    Forall2 (@same_shape nat) newU
      [mkBatch [1; 2] [true; true];
       mkBatch [3] [true; false];
       mkBatch [4] [false; true]].
Proof.
  apply (Propagate_matches_input_shape nat 0
           (Source [mkBatch [1; 2] [true; true];
                    mkBatch [3] [true; false];
                    mkBatch [4] [false; true]])
           [true; false]
           [mkBatch [1] [true; false]; mkBatch [3] [true; false]]
           [mkBatch [7] [true; false]; mkBatch [8] [true; false]]).
  - reflexivity.
  - repeat constructor.
  - repeat constructor; exists 1; reflexivity.
Defined.

Lemma Propagate_rejects_long_upstream_witness :
  reduceRes_Propagate 0 (Source [mkBatch [1] [true]])
    [mkBatch [5] [true]; mkBatch [6] [true]] <>
  Ok [mkBatch [5] [true]; mkBatch [6] [true]].
Proof.
  apply (Propagate_rejects_long_upstream nat 0 (Source [mkBatch [1] [true]])
           [mkBatch [5] [true]; mkBatch [6] [true]]).
  simpl. lia.
Defined.

Lemma pruneRes_Propagate_outcomes_witness :
  (exists m,
     pruneRes_Propagate
       (Source [mkBatch [1; 2] [true; false; true];
                mkBatch [3] [true; false; false]])
       [mkBatch [8; 9] [true; true]] = Ok m /\
     length m = 1) /\
  pruneRes_Propagate (Source [mkBatch [1] [true]])
    [mkBatch [5] [true]; mkBatch [6] [true]] = Err IndexOutOfRange.
Proof.
  split.
  - destruct (pruneRes_Propagate_outcomes nat
                (Source [mkBatch [1; 2] [true; false; true];
                         mkBatch [3] [true; false; false]])
                [mkBatch [8; 9] [true; true]]) as [Hok _].
    destruct Hok as (m & Hm & Hlen & _); [simpl; lia|].
    exists m. split; assumption.
  - apply (pruneRes_Propagate_outcomes nat (Source [mkBatch [1] [true]])
             [mkBatch [5] [true]; mkBatch [6] [true]]).
    simpl. lia.
Defined.

Lemma Prune_Propagate_round_trip_witness :
  pruneRes_Propagate
    (Source [mkBatch [1; 2] [true; false; true];
             mkBatch [3] [true; false; false]])
    [mkBatch [1; 2] [true; true]; mkBatch [3] [true; false]] =
  Ok [mkBatch [1; 2] [true; false; true]; mkBatch [3] [true; false; false]].
Proof.
  apply (Prune_Propagate_round_trip nat
           (Source [mkBatch [1; 2] [true; false; true];
                    mkBatch [3] [true; false; false]])
           (mkBatch [1; 2] [true; false; true])
           [mkBatch [3] [true; false; false]]
           [mkBatch [1; 2] [true; true]; mkBatch [3] [true; false]]).
  - reflexivity.
  - reflexivity.
Defined.

Lemma Prune_preserves_counts_witness :
  exists out,
    Prune (Source [mkBatch [1; 2] [true; false; true];
                   mkBatch [3] [true; false; false]]) =
      Ok (pruneRes (Source [mkBatch [1; 2] [true; false; true];
                            mkBatch [3] [true; false; false]]) out) /\
    length out = 2.
Proof.
  destruct (Prune_preserves_counts nat
              (Source [mkBatch [1; 2] [true; false; true];
                       mkBatch [3] [true; false; false]])
              (mkBatch [1; 2] [true; false; true])
              [mkBatch [3] [true; false; false]]) as (out & Hrun & Hrel).
  - reflexivity.
  - repeat constructor; auto; discriminate.
  - exists out. split; [exact Hrun|].
    apply Forall2_length in Hrel. now rewrite <- Hrel.
Defined.

Lemma Prune_output_masks_witness :
  exists r rs,
    Prune (Source [mkBatch [1; 2] [true; false; true];
                   mkBatch [3] [true; false; false]]) =
      Ok (pruneRes (Source [mkBatch [1; 2] [true; false; true];
                            mkBatch [3] [true; false; false]]) (r :: rs)) /\
    Forall (fun p => p = true) (Present r).
Proof.
  destruct (Prune_output_masks nat
              (Source [mkBatch [1; 2] [true; false; true];
                       mkBatch [3] [true; false; false]])
              (mkBatch [1; 2] [true; false; true])
              [mkBatch [3] [true; false; false]])
    as (r & rs & Hrun & _ & Hall & _).
  - reflexivity.
  - cbv. repeat constructor.
  - exists r, rs. split; assumption.
Defined.

Lemma Prune_twice_witness :
  masks_unchanged
    (pruneRes (Source [mkBatch [1; 2] [true; false; true];
                       mkBatch [3] [true; false; false]])
       [mkBatch [1; 2] [true; true]; mkBatch [3] [true; false]]).
Proof.
  apply (Prune_twice nat
           (Source [mkBatch [1; 2] [true; false; true];
                    mkBatch [3] [true; false; false]])
           (mkBatch [1; 2] [true; false; true])
           [mkBatch [3] [true; false; false]]).
  - reflexivity.
  - reflexivity.
Defined.

(** Masks [{A,B,C}, {A,C}], target [{A,C}]: the node of [Reduce] keeps three
    slots, the node of [Prune] two, and the upstream batches of two slots
    reach the source with three. *)
Lemma Propagate_through_Prune_of_Reduce_witness :
  exists newU,
    Forall2 (@same_shape nat) newU
      [mkBatch [1; 2; 3] [true; true; true]; mkBatch [4; 5] [true; false; true]] /\
    Propagate 0
      (pruneRes
         (reduceRes
            (Source [mkBatch [1; 2; 3] [true; true; true];
                     mkBatch [4; 5] [true; false; true]])
            [mkBatch [1; 3] [true; false; true];
             mkBatch [4; 5] [true; false; true]])
         [mkBatch [1; 3] [true; true]; mkBatch [4; 5] [true; true]])
      [mkBatch [7; 8] [true; true]; mkBatch [9; 9] [true; true]] =
    Ok newU.
Proof.
  apply (Propagate_through_Prune_of_Reduce nat 0
           (Source [mkBatch [1; 2; 3] [true; true; true];
                    mkBatch [4; 5] [true; false; true]])
           (reduceRes
              (Source [mkBatch [1; 2; 3] [true; true; true];
                       mkBatch [4; 5] [true; false; true]])
              [mkBatch [1; 3] [true; false; true];
               mkBatch [4; 5] [true; false; true]])
           (pruneRes
              (reduceRes
                 (Source [mkBatch [1; 2; 3] [true; true; true];
                          mkBatch [4; 5] [true; false; true]])
                 [mkBatch [1; 3] [true; false; true];
                  mkBatch [4; 5] [true; false; true]])
              [mkBatch [1; 3] [true; true]; mkBatch [4; 5] [true; true]])
           [true; false; true]
           [mkBatch [7; 8] [true; true]; mkBatch [9; 9] [true; true]]).
  - repeat constructor; exists 1; reflexivity.
  - reflexivity.
  - reflexivity.
  - repeat constructor.
Defined.

(** Slot [B] is absent at timestep 0 and present at timestep 1: the pruned
    batch of timestep 1 has one present sequence and two entries. *)
Lemma Prune_drops_late_slots_witness :
  exists out,
    Prune (Source [mkBatch [1] [true; false]; mkBatch [2; 3] [true; true]]) =
      Ok (pruneRes
            (Source [mkBatch [1] [true; false]; mkBatch [2; 3] [true; true]])
            out) /\
    length out = 2.
Proof.
  destruct (Prune_drops_late_slots nat
              (Source [mkBatch [1] [true; false]; mkBatch [2; 3] [true; true]])
              (mkBatch [1] [true; false]) [mkBatch [2; 3] [true; true]])
    as (out & Hrun & Hrel).
  - reflexivity.
  - cbv. repeat constructor.
  - exists out. split; [exact Hrun|].
    apply Forall2_length in Hrel. now rewrite <- Hrel.
Defined.

(** The same sequence, evaluated: [Prune] returns the packed vector
    [[2; 3]] under a mask with one slot. *)
Example Prune_breaks_the_invariant :
  Prune (Source [mkBatch [1] [true; false]; mkBatch [2; 3] [true; true]]) =
    Ok (pruneRes
          (Source [mkBatch [1] [true; false]; mkBatch [2; 3] [true; true]])
          [mkBatch [1] [true]; mkBatch [2; 3] [true]]).
Proof. reflexivity. Qed.

Lemma Propagate_of_own_output_witness :
  exists out newU,
    Reduce (Source [mkBatch [1; 2] [true; true];
                    mkBatch [3; 4] [true; true];
                    mkBatch [5] [false; true]]) [true; false] =
      Ok (reduceRes (Source [mkBatch [1; 2] [true; true];
                             mkBatch [3; 4] [true; true];
                             mkBatch [5] [false; true]]) out) /\
    reduceRes_Propagate 0
      (Source [mkBatch [1; 2] [true; true];
               mkBatch [3; 4] [true; true];
               mkBatch [5] [false; true]]) out = Ok newU.
Proof.
  destruct (Propagate_of_own_output nat 0
              (Source [mkBatch [1; 2] [true; true];
                       mkBatch [3; 4] [true; true];
                       mkBatch [5] [false; true]]) [true; false])
    as (out & Hrun & Hprop & _).
  - cbv. repeat split; try lia; intros _; repeat split; lia.
  - repeat constructor.
  - exists out. eexists. split; [exact Hrun|exact Hprop].
Defined.

(** The same node, evaluated: slot [B] is blanked in the emitted timesteps
    and the dropped timestep gets zeros. *)
Example Propagate_of_own_output_values :
  reduceRes_Propagate 0
    (Source [mkBatch [1; 2] [true; true];
             mkBatch [3; 4] [true; true];
             mkBatch [5] [false; true]])
    [mkBatch [1] [true; false]; mkBatch [3] [true; false]] =
    Ok [mkBatch [1; 0] [true; true];
        mkBatch [3; 0] [true; true];
        mkBatch [0] [false; true]].
Proof. reflexivity. Qed.
